(** * A streaming chat relay with per-conversation memory

    Shallow embedding of [fastAPI.py]: the settings loader and its cache,
    the [StreamingConversationChain] class with its dictionary of
    conversation memories, the [/chat] endpoint and the process entry
    point.

    Python objects that are shared by reference (the conversation
    memories) live in a heap addressed by locations; the dictionary
    [self.memories] stores locations, so that "the same object" is
    equality of locations.  The asynchronous generator of
    [generate_response] and the task it spawns are two cooperating state
    machines; their interleaving is left to a schedule, and so is what
    [aiter] is handed when a token and the end of the generation are both
    ready. *)

From Stdlib Require Import QArith.Qcanon.
From stdpp Require Import base option numbers gmap strings list fin_maps.

Set Default Proof Using "Type".

(** ** Exceptions *)

Inductive Exn :=
| ValidationError (field : string)   (* pydantic: a required field is missing *)
| RemoteError (reason : string).     (* the provider call failed *)

(** ** Library interfaces

    The application delegates to LangChain, pydantic, functools and
    Starlette.  Their code is not part of the repository; the modules
    below state the behaviour the application relies on. *)

Module langchain.

Inductive MessageRole := SystemRole | HumanRole | AIRole.

Record BaseMessage := Message { role : MessageRole; content : string }.

Definition SystemMessage (text : string) : BaseMessage := Message SystemRole text.
Definition HumanMessage (text : string) : BaseMessage := Message HumanRole text.
Definition AIMessage (text : string) : BaseMessage := Message AIRole text.

(** Modelled from the spec: [ConversationBufferMemory] (LangChain, not in
    the sources) is "an ordered sequence of prior message turns (role +
    content)"; a fresh one is empty. *)
Record ConversationBufferMemory := Memory { messages : list BaseMessage }.

Definition new_memory : ConversationBufferMemory := Memory [].

(** What the memory hands to the prompt under the variable [history]. *)
Definition load_memory_variables (m : ConversationBufferMemory) : list BaseMessage :=
  messages m.

(** Modelled from the spec: "Append the completed exchange to the memory
    slot for future turns": the user's input, then the model's output. *)
Definition save_context (input output : string) (m : ConversationBufferMemory)
  : ConversationBufferMemory :=
  Memory (messages m ++ [HumanMessage input; AIMessage output]).

(** The client object built by [ChatOpenAI(...)]: the options the
    application sets. *)
Record ChatOpenAI := {
  llm_streaming : bool;
  llm_temperature : Qc;
  llm_openai_api_key : string;
}.

(** What the provider answers to one generation call: the token fragments
    it streams, in order, and whether the call then fails. *)
Record Completion := { fragments : list string; failure : option string }.

(** What one generation call of the client yields in the end, the
    client's own attempts at the provider included: any function of the
    client options and the submitted messages. *)
Definition Remote : Type := ChatOpenAI → list BaseMessage → Completion.







(** Modelled from the spec: [AsyncIteratorCallbackHandler] (LangChain,
    not in the sources) relays "each produced token ... in generation
    order": a FIFO queue of tokens and a [done] event.  The library's
    handler does not queue a token that is the empty string. *)
Record AsyncIteratorCallbackHandler := Handler { queue : list string; done : bool }.

Definition new_handler : AsyncIteratorCallbackHandler := Handler [] false.

Definition on_llm_start (h : AsyncIteratorCallbackHandler) := Handler (queue h) false.
Definition on_llm_new_token (token : string) (h : AsyncIteratorCallbackHandler) :=
  match token with
  | EmptyString => h
  | _ => Handler (queue h ++ [token]) (done h)
  end.
Definition on_llm_end (h : AsyncIteratorCallbackHandler) := Handler (queue h) true.
Definition on_llm_error (h : AsyncIteratorCallbackHandler) := Handler (queue h) true.

(** The tokens a handler queues out of those reported to it. *)
Fixpoint delivered (tokens : list string) : list string :=
  match tokens with
  | [] => []
  | EmptyString :: tokens' => delivered tokens'
  | token :: tokens' => token :: delivered tokens'
  end.

(** The text the streaming client reports as the model's answer: the
    fragments joined. *)
Definition join (tokens : list string) : string := foldr String.append EmptyString tokens.

End langchain.

Export langchain.

Global Instance memory_inhabited : Inhabited ConversationBufferMemory := populate new_memory.

(** ** The prompt *)

Definition SYSTEM_TEMPLATE : string :=
  "당신은 주어진 articles를 기반으로 question을 답해야 합니다.            답할 수 있는 경우 답과 함께 근거 article를 붙여 서술하고,            알 수 없는 경우 '모르겠습니다.'라고 답변하세요.".

(** [CHAT_PROMPT_TEMPLATE.format_messages(history=..., input=...)]: the
    system message, the history in place of the placeholder, the input as
    a human message. *)
Definition CHAT_PROMPT_TEMPLATE (history : list BaseMessage) (input : string)
  : list BaseMessage :=
  [SystemMessage SYSTEM_TEMPLATE] ++ history ++ [HumanMessage input].

(** ** Settings *)

(** Where configuration comes from: the process environment and the file
    [.env] (absent, or a table of assignments).  Names are those pydantic
    looks up, already normalised. *)
Record Environ := {
  os_environ : gmap string string;
  env_file : option (gmap string string);
}.

(** A [Settings] object: its identity (as Python's [id]) and its one
    field. *)
Record Settings := { settings_id : nat; settings_openai_api_key : string }.

(** Modelled from the spec: "one required setting, a provider API key,
    sourced from environment or an environment file" (pydantic's
    [BaseSettings], not in the sources): the environment first, then the
    file; a required field found in neither is a validation error.  [id]
    is the identity the new object gets. *)
Definition Settings_init (env : Environ) (id : nat) : Exn + Settings :=
  match os_environ env !! "openai_api_key" with
  | Some key => inr {| settings_id := id; settings_openai_api_key := key |}
  | None =>
      match env_file env ≫= (.!! "openai_api_key") with
      | Some key => inr {| settings_id := id; settings_openai_api_key := key |}
      | None => inl (ValidationError "openai_api_key")
      end
  end.

(** [functools.lru_cache] around a function of no argument: one slot,
    filled by the first call that returns; a call that raises stores
    nothing.  [hits] and [misses] are the counters of [cache_info()];
    [misses] counts the runs of the wrapped function, each of which
    reads the environment and would build an object of its own. *)
Record LruCache := { cached : option Settings; hits : nat; misses : nat }.

Definition cache_empty : LruCache := {| cached := None; hits := 0; misses := 0 |}.

Definition get_settings (env : Environ) (c : LruCache) : (Exn + Settings) * LruCache :=
  match cached c with
  | Some s => (inr s, {| cached := Some s; hits := S (hits c); misses := misses c |})
  | None =>
      match Settings_init env (misses c) with
      | inr s => (inr s, {| cached := Some s; hits := hits c; misses := S (misses c) |})
      | inl e => (inl e, {| cached := None; hits := hits c; misses := S (misses c) |})
      end
  end.

(** ** The conversation chain and its store *)

(** Identity of a Python object. *)
Definition loc := nat.

(** An instance of [StreamingConversationChain]: its three attributes.
    [memories] maps a conversation identifier to the memory object stored
    under it. *)
Record StreamingConversationChain := {
  memories : gmap string loc;
  openai_api_key : string;
  temperature : Qc;
}.

Definition __init__ (openai_api_key : string) (temperature : Qc)
  : StreamingConversationChain :=
  {| memories := ∅; openai_api_key := openai_api_key; temperature := temperature |}.

(** The instance together with the memory objects that exist. *)
Record Store := {
  self : StreamingConversationChain;
  heap : gmap loc ConversationBufferMemory;
}.

(** [ConversationChain(memory=..., prompt=CHAT_PROMPT_TEMPLATE, llm=...)]:
    the prompt is the constant template. *)
Record ConversationChain := { memory : loc; llm : ChatOpenAI }.

(** One entry of the payload of a rejected request: where the error is,
    what it is, and its kind. *)
Record ErrorItem := { err_loc : list string; err_msg : string; err_type : string }.

(** What one request makes observable, in order of occurrence.
    [LlmCall] is the generation call the chain makes on the client;
    [ErrorDetail] is the JSON body [{"detail": [...]}] of a rejection. *)
Inductive Event :=
| ResponseStart (status_code : nat) (media_type : string)
| LlmCall (client : ChatOpenAI) (prompt : list BaseMessage)
| BodyChunk (data : string)
| ErrorDetail (detail : list ErrorItem)
| BodyEnd
| Aborted (e : Exn).

(** The task created by [asyncio.create_task(chain.arun(input=message))]. *)
Inductive Task :=
| Scheduled (chain : ConversationChain) (input : string)
| Generating (chain : ConversationChain) (input : string)
    (sent todo : list string) (err : option string)
| Completing (chain : ConversationChain) (input output : string)
| Finished (result : Exn + string).

(** The asynchronous generator object returned by a call of
    [generate_response]: where its body is suspended, with its local
    variables.  [Iterating]: inside [callback_handler.aiter()], waiting
    for a token or for the [done] event; [Yielded]: at [yield token],
    until the consumer asks for the next item; [Awaiting]: at
    [await run]. *)
Inductive Generator :=
| Created (conversation_id message : string)
| Iterating (callback_handler : AsyncIteratorCallbackHandler) (run : Task)
| Yielded (callback_handler : AsyncIteratorCallbackHandler) (run : Task)
| Awaiting (callback_handler : AsyncIteratorCallbackHandler) (run : Task)
| Returned
| Raised (e : Exn).

(** Lines 111-114: the memory stored under the identifier, or a new empty
    one stored under it. *)
Definition get_memory (conversation_id : string) (σ : Store) : loc * Store :=
  match memories (self σ) !! conversation_id with
  | Some memory => (memory, σ)
  | None =>
      let memory := fresh (dom (heap σ)) in
      (memory,
       {| self := {| memories := <[conversation_id := memory]> (memories (self σ));
                     openai_api_key := openai_api_key (self σ);
                     temperature := temperature (self σ) |};
          heap := <[memory := new_memory]> (heap σ) |})
  end.

(** Lines 104-109. *)
Definition make_llm (this : StreamingConversationChain) : ChatOpenAI :=
  {| llm_streaming := true;
     llm_temperature := temperature this;
     llm_openai_api_key := openai_api_key this |}.

(** Modelled from the spec: [ConversationChain.arun] (LangChain, not in
    the sources), one scheduling slice at a time: "Submit the message plus
    accumulated history to a remote generation call configured for
    incremental token delivery", report each token to the callback
    handler, then "Append the completed exchange to the memory slot".  A
    failed call raises and saves nothing. *)
Definition arun_step (remote : Remote) (h : AsyncIteratorCallbackHandler) (run : Task)
    (mems : gmap loc ConversationBufferMemory)
  : option (AsyncIteratorCallbackHandler * Task * list Event
            * gmap loc ConversationBufferMemory) :=
  match run with
  | Scheduled chain input =>
      let history := load_memory_variables (mems !!! memory chain) in
      let prompt := CHAT_PROMPT_TEMPLATE history input in
      let answer := remote (llm chain) prompt in
      Some (on_llm_start h,
            Generating chain input [] (fragments answer) (failure answer),
            [LlmCall (llm chain) prompt], mems)
  | Generating chain input sent (token :: todo) err =>
      Some (on_llm_new_token token h,
            Generating chain input (sent ++ [token]) todo err, [], mems)
  | Generating chain input sent [] None =>
      Some (on_llm_end h, Completing chain input (join sent), [], mems)
  | Generating chain input sent [] (Some reason) =>
      Some (on_llm_error h, Finished (inl (RemoteError reason)), [], mems)
  | Completing chain input output =>
      Some (h, Finished (inr output), [],
            alter (save_context input output) (memory chain) mems)
  | Finished _ => None
  end.

(** One request being served: the generator and what it has made
    observable so far. *)
Record Req := { gen : Generator; trace : list Event }.

Definition Config : Type := Req * Store.

(** A slice of the task, when the generator has created it. *)
Definition task_step (remote : Remote) (c : Config) : option Config :=
  let '(r, σ) := c in
  match gen r with
  | Iterating h run =>
      '(h', run', evs, mems) ← arun_step remote h run (heap σ);
      Some ({| gen := Iterating h' run'; trace := trace r ++ evs |},
            {| self := self σ; heap := mems |})
  | Yielded h run =>
      '(h', run', evs, mems) ← arun_step remote h run (heap σ);
      Some ({| gen := Yielded h' run'; trace := trace r ++ evs |},
            {| self := self σ; heap := mems |})
  | Awaiting h run =>
      '(h', run', evs, mems) ← arun_step remote h run (heap σ);
      Some ({| gen := Awaiting h' run'; trace := trace r ++ evs |},
            {| self := self σ; heap := mems |})
  | _ => None
  end.

(** [StreamingConversationChain.generate_response]: the body of the
    generator from one suspension point to the next.  A generator just
    created runs lines 103-122 up to the loop and waits in it.  In the
    loop (lines 124-125), a waiting generator is woken by the first token
    queued and yields it, or by [done] when no token came; resumed from
    [yield], it yields the next token queued, waits when nothing is
    queued, or leaves the loop once the queue is empty and [done] is set
    ([leave_at_done] below is the other way it can leave).  At
    [await run] (line 127) it returns or raises with the task.  [None]:
    the generator is waiting (for a token, for the task) or has
    finished. *)
Definition generate_response (c : Config) : option Config :=
  let '(r, σ) := c in
  match gen r with
  | Created conversation_id message =>
      let callback_handler := new_handler in
      let llm := make_llm (self σ) in
      let '(memory, σ') := get_memory conversation_id σ in
      let chain := {| memory := memory; llm := llm |} in
      let run := Scheduled chain message in
      Some ({| gen := Iterating callback_handler run; trace := trace r |}, σ')
  | Iterating h run =>
      match queue h with
      | token :: rest =>
          Some ({| gen := Yielded (Handler rest (done h)) run;
                   trace := trace r ++ [BodyChunk token] |}, σ)
      | [] =>
          if done h
          then Some ({| gen := Awaiting h run; trace := trace r |}, σ)
          else None
      end
  | Yielded h run =>
      match queue h with
      | token :: rest =>
          Some ({| gen := Yielded (Handler rest (done h)) run;
                   trace := trace r ++ [BodyChunk token] |}, σ)
      | [] =>
          if done h
          then Some ({| gen := Awaiting h run; trace := trace r |}, σ)
          else Some ({| gen := Iterating h run; trace := trace r |}, σ)
      end
  | Awaiting h (Finished (inr _)) =>
      Some ({| gen := Returned; trace := trace r ++ [BodyEnd] |}, σ)
  | Awaiting h (Finished (inl e)) =>
      Some ({| gen := Raised e; trace := trace r ++ [Aborted e] |}, σ)
  | _ => None
  end.

(** The other way out of the loop.  When the generator is resumed from
    [yield] with [done] set and tokens still queued, the two things
    [aiter] waits for are both ready, and it may be handed the [done]
    event first: the loop ends and the tokens left in the queue are never
    yielded. *)
Definition leave_at_done (c : Config) : option Config :=
  let '(r, σ) := c in
  match gen r with
  | Yielded h run =>
      if done h
      then Some ({| gen := Awaiting h run; trace := trace r |}, σ)
      else None
  | _ => None
  end.

(** ** The endpoint *)

Record ChatRequest := { conversation_id : string; message : string }.

(** [StreamingResponse(content, media_type=...)]; the status code defaults
    to 200. *)
Record StreamingResponse := {
  body_iterator : Generator;
  status_code : nat;
  media_type : string;
}.

Module app.

(** The handler of [POST /chat].  Calling the generator function only
    creates the generator object: none of its body runs here. *)
Definition generate_response (data : ChatRequest) : StreamingResponse :=
  {| body_iterator := Created (conversation_id data) (message data);
     status_code := 200;
     media_type := "text/event-stream" |}.

End app.

(** Starlette sends the status line and headers of a streaming response,
    and only then starts to iterate its body. *)
Definition respond (response : StreamingResponse) : Req :=
  {| gen := body_iterator response;
     trace := [ResponseStart (status_code response) (media_type response)] |}.

Definition accept (data : ChatRequest) (σ : Store) : Config :=
  (respond (app.generate_response data), σ).

(** ** Request validation

    The handler takes [data: ChatRequest]: the framework builds it from
    the body of the request, and answers by itself when it cannot. *)









(** ** Scheduling *)

(** The event loop resumes either the task or the generator; for the
    generator, [TheGeneratorAtDone] is the resumption in which [aiter]
    is handed the [done] event before a queued token. *)
Inductive Actor := TheTask | TheGenerator | TheGeneratorAtDone.

Definition step (remote : Remote) (a : Actor) (c : Config) : option Config :=
  match a with
  | TheTask => task_step remote c
  | TheGenerator => generate_response c
  | TheGeneratorAtDone => leave_at_done c
  end.

(** Resuming an actor that is waiting changes nothing. *)
Fixpoint run_schedule (remote : Remote) (schedule : list Actor) (c : Config) : Config :=
  match schedule with
  | [] => c
  | a :: schedule' => run_schedule remote schedule' (default c (step remote a c))
  end.

Definition finished (c : Config) : bool :=
  match gen c.1 with
  | Returned | Raised _ => true
  | _ => false
  end.

(** The schedule of a backend that answers at once, before a consumer
    that is handed every token: the task runs whenever it can, the
    generator otherwise. *)
Fixpoint drive (remote : Remote) (fuel : nat) (c : Config) : Config :=
  match fuel with
  | 0 => c
  | S fuel' =>
      match task_step remote c with
      | Some c' => drive remote fuel' c'
      | None =>
          match generate_response c with
          | Some c' => drive remote fuel' c'
          | None => c
          end
      end
  end.

(** Resumptions that suffice once the call has been made: one per
    fragment still to be reported, one per fragment still to be yielded,
    and four to end the call, save the context, leave the loop and
    return. *)
Definition resumptions_left (c : Config) : nat :=
  match gen c.1 with
  | Iterating h (Generating _ _ _ todo _) => 2 * length todo + length (queue h) + 4
  | _ => 0
  end.

(** One request served from the handler's return to the end of the
    stream. *)
Definition serve (remote : Remote) (data : ChatRequest) (σ : Store) : Config :=
  let c1 := drive remote 2 (accept data σ) in
  drive remote (resumptions_left c1) c1.

(** The chunks of a response body. *)
Definition body_of (tr : list Event) : list string :=
  omap (λ ev, match ev with BodyChunk data => Some data | _ => None end) tr.

(** The prompts submitted to the provider. *)
Definition prompts_of (tr : list Event) : list (list BaseMessage) :=
  omap (λ ev, match ev with LlmCall _ prompt => Some prompt | _ => None end) tr.

(** ** The server: requests in flight over one store *)

Record Inflight := { remote_of : Remote; data_of : ChatRequest; req_of : Req }.

Record System := { store : Store; inflight : list Inflight }.

Definition boot (openai_api_key : string) : System :=
  {| store := {| self := __init__ openai_api_key 0; heap := ∅ |}; inflight := [] |}.

Inductive sys_step : System → System → Prop :=
| sys_accept remote data sys :
    sys_step sys
      {| store := store sys;
         inflight := inflight sys ++
           [{| remote_of := remote; data_of := data;
               req_of := respond (app.generate_response data) |}] |}
| sys_resume i a f r' σ' sys :
    inflight sys !! i = Some f →
    step (remote_of f) a (req_of f, store sys) = Some (r', σ') →
    sys_step sys
      {| store := σ';
         inflight := <[i := {| remote_of := remote_of f; data_of := data_of f;
                               req_of := r' |}]> (inflight sys) |}.

(** ** The process *)

(** The module-level state once the file has been imported. *)
Record App := {
  settings_cache : LruCache;
  streaming_conversation_chain : Store;
}.

(** Lines 151-155, run at import: the chain is built from
    [get_settings().openai_api_key]; an exception aborts the import. *)
Definition module_init (env : Environ) : Exn + App :=
  match get_settings env cache_empty with
  | (inr settings, cache) =>
      inr {| settings_cache := cache;
             streaming_conversation_chain :=
               {| self := __init__ (settings_openai_api_key settings) 0; heap := ∅ |} |}
  | (inl e, _) => inl e
  end.

(** A request as it reaches the running server: the environment and the
    provider as they are at that time. *)
Record Arrival := { env_then : Environ; remote_then : Remote; request : ChatRequest }.

(** One request handled alone.  The application-wide dependency
    [Depends(get_settings)] is resolved first; were it to raise, the
    framework would answer 500 without calling the handler. *)
Definition handle (a : Arrival) (app : App) : list Event * App :=
  match get_settings (env_then a) (settings_cache app) with
  | (inr _, cache) =>
      let '(r, σ) := serve (remote_then a) (request a) (streaming_conversation_chain app) in
      (trace r, {| settings_cache := cache; streaming_conversation_chain := σ |})
  | (inl _, cache) =>
      ([ResponseStart 500 "text/plain"],
       {| settings_cache := cache;
          streaming_conversation_chain := streaming_conversation_chain app |})
  end.

Fixpoint handle_all (arrivals : list Arrival) (app : App) : list (list Event) * App :=
  match arrivals with
  | [] => ([], app)
  | a :: arrivals' =>
      let '(tr, app') := handle a app in
      let '(trs, app'') := handle_all arrivals' app' in
      (tr :: trs, app'')
  end.

(** [uvicorn.run(app)] after the import: the responses given to the
    requests that arrive, or the exception that ended the import. *)
Definition main (env : Environ) (arrivals : list Arrival) : Exn + list (list Event) * App :=
  match module_init env with
  | inl e => inl e
  | inr app => inr (handle_all arrivals app)
  end.

(** ** What one request amounts to

    The definitions below describe the outcome of a request in closed
    form; the theorems relate them to the runs of the two actors. *)

(** How the generator ends on the task's result: it returns and the body
    is closed, or [await run] raises the task's exception. *)
Definition ending (result : Exn + string) : Generator * Event :=
  match result with
  | inr _ => (Returned, BodyEnd)
  | inl e => (Raised e, Aborted e)
  end.

Definition result_of (err : option string) (tokens : list string) : Exn + string :=
  match err with
  | None => inr (join tokens)
  | Some reason => inl (RemoteError reason)
  end.

Definition saved (result : Exn + string) (chain : ConversationChain) (input : string)
    (σ : Store) : Store :=
  match result with
  | inr output =>
      {| self := self σ;
         heap := alter (save_context input output) (memory chain) (heap σ) |}
  | inl _ => σ
  end.

(** The turns remembered under an identifier; none when it has no slot. *)
Definition history_of (cid : string) (σ : Store) : list BaseMessage :=
  match memories (self σ) !! cid with
  | Some memory => load_memory_variables (heap σ !!! memory)
  | None => []
  end.

(** The context a request submits, and what the provider answers to it. *)
Definition submitted (data : ChatRequest) (σ : Store) : list BaseMessage :=
  CHAT_PROMPT_TEMPLATE (history_of (conversation_id data) σ) (message data).

Definition answer (remote : Remote) (data : ChatRequest) (σ : Store) : Completion :=
  remote (make_llm (self σ)) (submitted data σ).

(** The events of a request once the chunks [out] have been sent. *)
Definition head_of (data : ChatRequest) (σ : Store) (out : list string) : list Event :=
  [ResponseStart 200 "text/event-stream";
   LlmCall (make_llm (self σ)) (submitted data σ)] ++ (BodyChunk <$> out).

Definition chain_of (data : ChatRequest) (σ : Store) : ConversationChain :=
  {| memory := (get_memory (conversation_id data) σ).1; llm := make_llm (self σ) |}.

(** A request that has ended after the chunks [out]. *)
Definition ended (remote : Remote) (data : ChatRequest) (σ : Store) (out : list string)
  : Config :=
  let a := answer remote data σ in
  let result := result_of (failure a) (fragments a) in
  ({| gen := (ending result).1;
      trace := head_of data σ out ++ [(ending result).2] |},
   saved result (chain_of data σ) (message data) (get_memory (conversation_id data) σ).2).

(** A request that has ended after every token the handler queued. *)
Definition final (remote : Remote) (data : ChatRequest) (σ : Store) : Config :=
  ended remote data σ (delivered (fragments (answer remote data σ))).

(** Where the generator is suspended once the task exists. *)
Inductive Suspension := InAiter | AtYield | AtAwait.

Definition suspended (s : Suspension) (h : AsyncIteratorCallbackHandler) (run : Task)
  : Generator :=
  match s with
  | InAiter => Iterating h run
  | AtYield => Yielded h run
  | AtAwait => Awaiting h run
  end.

(** What holds of the chunks sent [out] and of the queue [q] at each
    suspension: the generator is at [yield] after a chunk; it has left the
    loop with an empty queue or, when [lossy] resumptions are counted in,
    after a chunk. *)
Definition cut_short (lossy : bool) (out q : list string) : Prop :=
  q = [] ∨ (lossy = true ∧ out ≠ []).

Definition suspension_ok (lossy : bool) (s : Suspension) (out q : list string) : Prop :=
  match s with
  | InAiter => True
  | AtYield => out ≠ []
  | AtAwait => cut_short lossy out q
  end.

(** The configurations a request goes through, whatever the schedule:
    [out] has been sent to the client, [q] waits in the handler's queue,
    [sent] has come from the provider and [todo] is still to come.  With
    [lossy] the resumptions of [leave_at_done] are counted in. *)
Inductive inv (lossy : bool) (remote : Remote) (data : ChatRequest) (σ : Store)
  : Config → Prop :=
| inv_created :
    inv lossy remote data σ (accept data σ)
| inv_scheduled :
    inv lossy remote data σ
      ({| gen := Iterating new_handler (Scheduled (chain_of data σ) (message data));
          trace := [ResponseStart 200 "text/event-stream"] |},
       (get_memory (conversation_id data) σ).2)
| inv_generating s out q sent todo :
    s ≠ AtAwait →
    sent ++ todo = fragments (answer remote data σ) →
    out ++ q = delivered sent →
    suspension_ok lossy s out q →
    inv lossy remote data σ
      ({| gen := suspended s (Handler q false)
                   (Generating (chain_of data σ) (message data) sent todo
                      (failure (answer remote data σ)));
          trace := head_of data σ out |},
       (get_memory (conversation_id data) σ).2)
| inv_completing s out q :
    failure (answer remote data σ) = None →
    out ++ q = delivered (fragments (answer remote data σ)) →
    suspension_ok lossy s out q →
    inv lossy remote data σ
      ({| gen := suspended s (Handler q true)
                   (Completing (chain_of data σ) (message data)
                      (join (fragments (answer remote data σ))));
          trace := head_of data σ out |},
       (get_memory (conversation_id data) σ).2)
| inv_finished s out q :
    out ++ q = delivered (fragments (answer remote data σ)) →
    suspension_ok lossy s out q →
    inv lossy remote data σ
      ({| gen := suspended s (Handler q true)
                   (Finished (result_of (failure (answer remote data σ))
                                (fragments (answer remote data σ))));
          trace := head_of data σ out |},
       (final remote data σ).2)
| inv_ended out q :
    out ++ q = delivered (fragments (answer remote data σ)) →
    cut_short lossy out q →
    inv lossy remote data σ (ended remote data σ out).

(** ** Well-formed stores *)

(** Every stored location is a live memory object, and no object is stored
    under two identifiers. *)
Definition wf (σ : Store) : Prop :=
  (∀ cid l, memories (self σ) !! cid = Some l → is_Some (heap σ !! l)) ∧
  (∀ cid1 cid2 l,
      memories (self σ) !! cid1 = Some l → memories (self σ) !! cid2 = Some l →
      cid1 = cid2).

(** The task of a generator that has created it. *)
Definition task_of (g : Generator) : option Task :=
  match g with
  | Iterating _ run | Yielded _ run | Awaiting _ run => Some run
  | _ => None
  end.

(** The chain of a request in flight holds the object stored under the
    request's identifier. *)
Definition task_memory (run : Task) : option loc :=
  match run with
  | Scheduled chain _ | Generating chain _ _ _ _ | Completing chain _ _ =>
      Some (memory chain)
  | Finished _ => None
  end.

Definition bound_to (σ : Store) (f : Inflight) : Prop :=
  match gen (req_of f) with
  | Created cid _ => cid = conversation_id (data_of f)
  | Iterating _ run | Yielded _ run | Awaiting _ run =>
      ∀ l, task_memory run = Some l →
           memories (self σ) !! conversation_id (data_of f) = Some l
  | Returned | Raised _ => True
  end.

Definition sys_inv (sys : System) : Prop :=
  wf (store sys) ∧ Forall (bound_to (store sys)) (inflight sys).

(** The store with the content of one memory object replaced. *)
Definition with_memory (l : loc) (m : ConversationBufferMemory) (σ : Store) : Store :=
  {| self := self σ; heap := <[l := m]> (heap σ) |}.

(** A response that reports a server error. *)
Definition server_error_response (tr : list Event) : Prop :=
  ∃ status media rest, tr = ResponseStart status media :: rest ∧ 500 ≤ status.

(** [get_settings()] called once per environment of the list, in order. *)
Fixpoint get_settings_calls (envs : list Environ) (c : LruCache)
  : list (Exn + Settings) * LruCache :=
  match envs with
  | [] => ([], c)
  | env :: envs' =>
      let '(r, c') := get_settings env c in
      let '(rs, c'') := get_settings_calls envs' c' in
      (r :: rs, c'')
  end.

(** What the event loop does next: take a new request, or resume an actor
    of the request at some position. *)
Inductive Action :=
| Accept (remote : Remote) (data : ChatRequest)
| Resume (i : nat) (a : Actor).

Definition sys_do (act : Action) (sys : System) : System :=
  match act with
  | Accept remote data =>
      {| store := store sys;
         inflight := inflight sys ++
           [{| remote_of := remote; data_of := data;
               req_of := respond (app.generate_response data) |}] |}
  | Resume i a =>
      match inflight sys !! i with
      | Some f =>
          match step (remote_of f) a (req_of f, store sys) with
          | Some (r', σ') =>
              {| store := σ';
                 inflight := <[i := {| remote_of := remote_of f; data_of := data_of f;
                                       req_of := r' |}]> (inflight sys) |}
          | None => sys
          end
      | None => sys
      end
  end.

Definition sys_run (acts : list Action) (sys : System) : System :=
  foldl (λ sys act, sys_do act sys) sys acts.

(** What a step does to the store: nothing, a new slot for the request's
    identifier, or the exchange appended to the chain's memory. *)
Inductive store_change (r : Req) (σ : Store) : Store → Prop :=
| change_none : store_change r σ σ
| change_slot cid message :
    gen r = Created cid message →
    store_change r σ (get_memory cid σ).2
| change_save chain input output :
    task_of (gen r) = Some (Completing chain input output) →
    store_change r σ
      {| self := self σ;
         heap := alter (save_context input output) (memory chain) (heap σ) |}.

(** ** Sample inputs *)

Definition cat_request : ChatRequest :=
  {| conversation_id := "cat-conversation"; message := "what's their size?" |}.

Definition cat_followup : ChatRequest :=
  {| conversation_id := "cat-conversation"; message := "and their weight?" |}.

Definition dog_request : ChatRequest :=
  {| conversation_id := "dog-conversation"; message := "do they bark?" |}.

(** A provider that streams three fragments, one that fails after the
    first fragment, and one whose only fragment is empty. *)
Definition steady_remote : Remote :=
  λ _ _, {| fragments := ["Cats "; "are "; "small."]; failure := None |}.

Definition failing_remote : Remote :=
  λ _ _, {| fragments := ["Cats "]; failure := Some "connection reset" |}.

Definition silent_remote : Remote :=
  λ _ _, {| fragments := [""]; failure := None |}.

Definition key_env : Environ :=
  {| os_environ := {["openai_api_key" := "sk-test"]}; env_file := None |}.

Definition bare_env : Environ :=
  {| os_environ := ∅; env_file := Some ∅ |}.

(** The generator and the task resumed in turn, [n] times. *)
Definition round_robin (n : nat) : list Actor :=
  concat (replicate n [TheGenerator; TheTask]).




Definition started : Store := store (boot "sk-test").

(** A server with the cat conversation under way and a request on the
    dog conversation just accepted. *)
Definition two_conversations : System :=
  sys_run [Accept steady_remote cat_request; Resume 0 TheGenerator;
           Resume 0 TheTask; Accept steady_remote dog_request]
    (boot "sk-test").

Definition dog_inflight : Inflight :=
  {| remote_of := steady_remote; data_of := dog_request;
     req_of := respond (app.generate_response dog_request) |}.

Definition dog_started : Config :=
  default (req_of dog_inflight, store two_conversations)
    (step steady_remote TheGenerator (req_of dog_inflight, store two_conversations)).

(** ** Histories and calls *)

(** One exchange as the memory keeps it, and a history made of whole
    exchanges. *)
Definition exchange (input output : string) : list BaseMessage :=
  [HumanMessage input; AIMessage output].

Definition turns_of (turns : list (string * string)) : list BaseMessage :=
  turns ≫= (λ turn, exchange turn.1 turn.2).

(** The client every request builds in a chain constructed with [key] and
    the default temperature. *)
Definition configured_client (key : string) : ChatOpenAI :=
  make_llm (__init__ key 0).

(** A call to the model made with the configured client on a prompt of
    the template's shape over whole exchanges. *)
Definition call_shape (key : string) (ev : Event) : Prop :=
  match ev with
  | LlmCall client prompt =>
      client = configured_client key ∧
      ∃ turns input,
        prompt = [SystemMessage SYSTEM_TEMPLATE] ++ turns_of turns ++ [HumanMessage input]
  | _ => True
  end.

Definition store_shape (key : string) (σ : Store) : Prop :=
  openai_api_key (self σ) = key ∧
  temperature (self σ) = 0%Qc ∧
  ∀ l m, heap σ !! l = Some m → ∃ turns, messages m = turns_of turns.

Definition scheduled_chain (g : Generator) : option ConversationChain :=
  match g with
  | Iterating _ (Scheduled chain _) | Yielded _ (Scheduled chain _)
  | Awaiting _ (Scheduled chain _) => Some chain
  | _ => None
  end.

Definition req_shape (key : string) (r : Req) : Prop :=
  Forall (call_shape key) (trace r) ∧
  ∀ chain, scheduled_chain (gen r) = Some chain → llm chain = configured_client key.

Definition calls_inv (key : string) (sys : System) : Prop :=
  store_shape key (store sys) ∧
  Forall (λ f, req_shape key (req_of f)) (inflight sys).

(** Every memory object is stored under some identifier. *)
Definition tight (σ : Store) : Prop :=
  ∀ l, is_Some (heap σ !! l) → ∃ cid, memories (self σ) !! cid = Some l.




(** Requests on two conversations, the second of which fails. *)
Definition sample_arrivals : list Arrival :=
  [{| env_then := key_env; remote_then := steady_remote; request := cat_request |};
   {| env_then := bare_env; remote_then := failing_remote; request := dog_request |};
   {| env_then := key_env; remote_then := steady_remote; request := cat_followup |}].

(** The process started with the key in its environment and given the
    sample requests: its responses and its final state. *)
Definition sample_outcome : list (list Event) * App :=
  match main key_env sample_arrivals with
  | inr outcome => outcome
  | inl _ =>
      ([], {| settings_cache := cache_empty; streaming_conversation_chain := started |})
  end.

(** The cat request in flight in [two_conversations], and the server once
    that request has been served to its end. *)
Definition cat_inflight : Inflight :=
  default dog_inflight (inflight two_conversations !! 0).

Definition cat_served : System :=
  sys_run (concat (replicate 6 [Resume 0 TheTask; Resume 0 TheGenerator]))
    two_conversations.

(** The same request served to a slow consumer: the task runs to its
    end, then the generator yields one chunk, takes the [done] event and
    returns. *)
Definition cat_cut_short : System :=
  sys_run [Resume 0 TheTask; Resume 0 TheTask; Resume 0 TheTask; Resume 0 TheTask;
           Resume 0 TheTask; Resume 0 TheGenerator; Resume 0 TheGeneratorAtDone;
           Resume 0 TheGenerator]
    two_conversations.

(** An exchange is remembered: it stands, whole, in the memory stored
    under the identifier. *)
Definition saved_in (σ : Store) (cid : string) (ex : list BaseMessage) : Prop :=
  ∃ l m before after,
    memories (self σ) !! cid = Some l ∧ heap σ !! l = Some m ∧
    messages m = before ++ ex ++ after.

(** How far the task of a request is, against what the handler has
    queued: the chunks sent followed by the tokens still in the queue. *)
Definition task_progress (σ : Store) (data : ChatRequest) (queued : list string)
    (run : Task) : Prop :=
  match run with
  | Scheduled _ input => input = message data ∧ queued = []
  | Generating _ input sent _ _ => input = message data ∧ queued = delivered sent
  | Completing _ input output => input = message data ∧ output = join queued
  | Finished (inr output) =>
      output = join queued ∧
      saved_in σ (conversation_id data) (exchange (message data) output)
  | Finished (inl _) => True
  end.

Definition progress (σ : Store) (f : Inflight) : Prop :=
  match gen (req_of f) with
  | Created cid msg =>
      cid = conversation_id (data_of f) ∧ msg = message (data_of f) ∧
      body_of (trace (req_of f)) = []
  | Iterating h run | Yielded h run | Awaiting h run =>
      task_progress σ (data_of f) (body_of (trace (req_of f)) ++ queue h) run
  | Returned =>
      ∃ rest,
        saved_in σ (conversation_id (data_of f))
          (exchange (message (data_of f)) (join (body_of (trace (req_of f))) +:+ rest))
  | Raised _ => True
  end.

(** * Proofs *)

(** ** Tokens and the handler's queue *)

Lemma delivered_app xs ys : delivered (xs ++ ys) = delivered xs ++ delivered ys.
Proof. induction xs as [|[|a x] xs IH]; simpl; [done|done|by f_equal]. Qed.

Lemma delivered_length tokens : length (delivered tokens) ≤ length tokens.
Proof. induction tokens as [|[|a x] xs IH]; simpl; lia. Qed.

Lemma delivered_non_empty tokens : Forall (λ token, token ≠ "") (delivered tokens).
Proof. induction tokens as [|[|a x] xs IH]; simpl; [done|done|]. by constructor. Qed.

Lemma elem_of_delivered token tokens :
  token ∈ tokens → token ≠ "" → token ∈ delivered tokens.
Proof.
  intros Hin Hne. induction tokens as [|t ts IH]; [by apply elem_of_nil in Hin|].
  apply elem_of_cons in Hin as [<-|Hin].
  - destruct token; [done|]. left.
  - destruct t; simpl; [by apply IH|]. right. by apply IH.
Qed.

Lemma append_assoc (x y z : string) : x +:+ (y +:+ z) = (x +:+ y) +:+ z.
Proof.
  induction x as [|a x IH]; [done|].
  change (String a (x +:+ (y +:+ z)) = String a ((x +:+ y) +:+ z)). by rewrite IH.
Qed.

Lemma join_app xs ys : join (xs ++ ys) = join xs +:+ join ys.
Proof.
  induction xs as [|x xs IH]; simpl; [done|]. by rewrite IH, append_assoc.
Qed.

Lemma join_delivered tokens : join (delivered tokens) = join tokens.
Proof. induction tokens as [|[|a x] xs IH]; simpl; [done|done|by f_equal]. Qed.

Lemma join_non_empty tokens :
  tokens ≠ [] → Forall (λ token, token ≠ "") tokens → join tokens ≠ "".
Proof. intros Hne Hall. destruct Hall as [|[|a x] xs Hx _]; simpl; done. Qed.

Lemma on_llm_new_token_queue token h :
  on_llm_new_token token h = Handler (queue h ++ delivered [token]) (done h).
Proof. destruct token, h; simpl; by rewrite ?app_nil_r. Qed.

(** ** One request: the eager schedule in closed form *)

Lemma store_eta σ : {| self := self σ; heap := heap σ |} = σ.
Proof. by destruct σ. Qed.

Lemma drive_drain remote result q : ∀ s tr σ fuel,
  s ≠ AtAwait →
  length q + 2 ≤ fuel →
  drive remote fuel
    ({| gen := suspended s (Handler q true) (Finished result); trace := tr |}, σ)
  = ({| gen := (ending result).1;
        trace := tr ++ (BodyChunk <$> q) ++ [(ending result).2] |}, σ).
Proof.
  induction q as [|token q IH]; intros s tr σ fuel Hs Hfuel; simpl in Hfuel.
  - destruct fuel as [|[|fuel]]; [lia..|].
    destruct s; [| |done]; destruct result; simpl; by destruct fuel.
  - destruct fuel as [|fuel]; [lia|].
    pose proof (IH AtYield (tr ++ [BodyChunk token]) σ fuel) as H. simpl in H.
    destruct s; [| |done]; simpl; (rewrite H by (done || lia)); by rewrite <-app_assoc.
Qed.

Lemma drive_generating remote chain input err todo : ∀ sent h tr σ fuel,
  2 * length todo + length (queue h) + 4 ≤ fuel →
  drive remote fuel
    ({| gen := Iterating h (Generating chain input sent todo err); trace := tr |}, σ)
  = ({| gen := (ending (result_of err (sent ++ todo))).1;
        trace := tr ++ (BodyChunk <$> (queue h ++ delivered todo))
                    ++ [(ending (result_of err (sent ++ todo))).2] |},
     saved (result_of err (sent ++ todo)) chain input σ).
Proof.
  induction todo as [|token todo IH]; intros sent h tr σ fuel Hfuel; simpl in Hfuel.
  - destruct fuel as [|fuel]; [lia|]. rewrite !app_nil_r.
    destruct σ as [this mems], err as [reason|]; simpl.
    + rewrite app_nil_r. unfold on_llm_error.
      rewrite (drive_drain _ _ _ InAiter); [done|done|simpl; lia].
    + destruct fuel as [|fuel]; [lia|]. simpl. rewrite !app_nil_r.
      unfold on_llm_end. rewrite (drive_drain _ _ _ InAiter); [done|done|simpl; lia].
  - destruct fuel as [|fuel]; [lia|]. destruct σ as [this mems]. simpl.
    rewrite app_nil_r, IH.
    + rewrite on_llm_new_token_queue, <-!app_assoc. simpl.
      destruct token; simpl; by rewrite <-?app_assoc.
    + rewrite on_llm_new_token_queue. simpl. rewrite length_app.
      pose proof (delivered_length [token]). simpl in *. lia.
Qed.

Lemma get_memory_history cid σ :
  load_memory_variables (heap (get_memory cid σ).2 !!! (get_memory cid σ).1)
  = history_of cid σ.
Proof.
  unfold get_memory, history_of. destruct (memories (self σ) !! cid); simpl; [done|].
  by rewrite lookup_total_insert_eq.
Qed.

(** ** The steps of the task and of the generator *)

Lemma left_the_loop s : s = AtAwait ∨ s ≠ AtAwait.
Proof. destruct s; auto. Qed.

Lemma task_step_suspended remote s h run tr σ :
  task_step remote ({| gen := suspended s h run; trace := tr |}, σ)
  = '(h', run', evs, mems) ← arun_step remote h run (heap σ);
    Some ({| gen := suspended s h' run'; trace := tr ++ evs |},
          {| self := self σ; heap := mems |}).
Proof. by destruct s. Qed.

Lemma task_step_inv remote r σ c' :
  task_step remote (r, σ) = Some c' →
  ∃ s h run h' run' evs mems,
    gen r = suspended s h run ∧
    arun_step remote h run (heap σ) = Some (h', run', evs, mems) ∧
    c' = ({| gen := suspended s h' run'; trace := trace r ++ evs |},
          {| self := self σ; heap := mems |}).
Proof.
  simpl. intros Hstep.
  destruct (gen r) as [| h run | h run | h run | |] eqn:Hgen; simplify_eq;
    destruct (arun_step remote h run (heap σ)) as [[[[h' run'] evs] mems]|] eqn:Hrun;
    simplify_eq/=;
    [exists InAiter|exists AtYield|exists AtAwait]; by exists h, run, h', run', evs, mems.
Qed.

Lemma generate_response_loop s h run tr σ c' :
  s ≠ AtAwait →
  generate_response ({| gen := suspended s h run; trace := tr |}, σ) = Some c' →
  (∃ token rest,
     queue h = token :: rest ∧
     c' = ({| gen := Yielded (Handler rest (done h)) run;
              trace := tr ++ [BodyChunk token] |}, σ)) ∨
  (queue h = [] ∧ done h = true ∧ c' = ({| gen := Awaiting h run; trace := tr |}, σ)) ∨
  (queue h = [] ∧ done h = false ∧ s = AtYield ∧
   c' = ({| gen := Iterating h run; trace := tr |}, σ)).
Proof.
  intros Hs Hstep. destruct s; [| |done]; simpl in Hstep;
    (destruct (queue h) as [|token rest]; [destruct (done h)|]); simplify_eq;
    first [by left; eexists _, _|by right; left|by right; right].
Qed.

Lemma generate_response_awaiting h run tr σ c' :
  generate_response ({| gen := Awaiting h run; trace := tr |}, σ) = Some c' →
  ∃ result,
    run = Finished result ∧
    c' = ({| gen := (ending result).1; trace := tr ++ [(ending result).2] |}, σ).
Proof.
  simpl. destruct run as [| | |[e|output]]; intros; simplify_eq; eauto.
Qed.

Lemma leave_at_done_inv r σ c' :
  leave_at_done (r, σ) = Some c' →
  ∃ h run,
    gen r = Yielded h run ∧ done h = true ∧
    c' = ({| gen := Awaiting h run; trace := trace r |}, σ).
Proof.
  simpl. destruct (gen r) as [| | h run | | |]; try done.
  destruct (done h) eqn:Hd; intros; simplify_eq; eauto.
Qed.

Section one_request.
Variables (remote : Remote) (data : ChatRequest) (σ0 : Store).

Local Abbreviation cid := (conversation_id data).
Local Abbreviation msg := (message data).
Local Abbreviation σ1 := ((get_memory cid σ0).2).
Local Abbreviation frags := (fragments (answer remote data σ0)).
Local Abbreviation err := (failure (answer remote data σ0)).
Local Abbreviation result := (result_of err frags).

Lemma prompt_submitted :
  CHAT_PROMPT_TEMPLATE (load_memory_variables (heap σ1 !!! (get_memory cid σ0).1)) msg
  = submitted data σ0.
Proof. unfold submitted. by rewrite <-get_memory_history. Qed.

Lemma serve_final : serve remote data σ0 = final remote data σ0.
Proof.
  unfold serve, accept, final, ended, chain_of, generate_response, head_of. simpl.
  pose proof prompt_submitted as Hp.
  destruct (get_memory cid σ0) as [l σ'] eqn:Hget. simpl in *.
  unfold resumptions_left. simpl.
  rewrite drive_generating by (simpl; lia). simpl.
  rewrite Hp. unfold answer. by rewrite store_eta.
Qed.

Lemma head_of_snoc out token :
  head_of data σ0 out ++ [BodyChunk token] = head_of data σ0 (out ++ [token]).
Proof. unfold head_of. by rewrite fmap_app, <-app_assoc. Qed.

Lemma final_store_failed reason : err = Some reason → (final remote data σ0).2 = σ1.
Proof. intros H. unfold final, ended. simpl. by rewrite H. Qed.

Lemma final_store_saved :
  err = None →
  (final remote data σ0).2
  = {| self := self σ1;
       heap := alter (save_context msg (join frags)) (memory (chain_of data σ0)) (heap σ1) |}.
Proof. intros H. unfold final, ended. simpl. by rewrite H. Qed.

Lemma inv_step lossy a c c' :
  lossy = true ∨ a ≠ TheGeneratorAtDone →
  inv lossy remote data σ0 c → step remote a c = Some c' → inv lossy remote data σ0 c'.
Proof.
  intros Hlossy Hinv Hstep.
  destruct Hinv as [| |s out q sent todo Hs Hsent Hq Hok|s out q Herr Hq Hok
                    |s out q Hq Hok|out q Hq Hok].
  - (* the generator starts *)
    destruct a; simpl in Hstep; simplify_eq.
    pose proof (inv_scheduled lossy remote data σ0) as H. unfold chain_of in H.
    destruct (get_memory cid σ0); by simplify_eq.
  - (* the task submits the prompt *)
    destruct a; simpl in Hstep; simplify_eq.
    rewrite prompt_submitted, store_eta.
    by apply (inv_generating lossy remote data σ0 InAiter [] [] [] frags).
  - destruct a; unfold step in Hstep.
    + (* the task reports a token, or the call ends *)
      rewrite task_step_suspended in Hstep. destruct todo as [|token todo].
      * rewrite app_nil_r in Hsent. subst sent.
        destruct err as [reason|] eqn:Herr; simpl in Hstep; simplify_eq;
          rewrite app_nil_r, store_eta.
        -- rewrite <-(final_store_failed reason Herr).
           pose proof (inv_finished lossy remote data σ0 s out q Hq) as Hi.
           rewrite Herr in Hi. apply Hi. by destruct s.
        -- pose proof (inv_completing lossy remote data σ0 s out q Herr Hq) as Hi.
           apply Hi. by destruct s.
      * simpl in Hstep. simplify_eq. rewrite app_nil_r, store_eta.
        rewrite on_llm_new_token_queue. simpl.
        apply inv_generating; [done| | |by destruct s].
        -- by rewrite <-app_assoc.
        -- by rewrite delivered_app, app_assoc, Hq.
    + (* the generator yields a token, or waits *)
      apply generate_response_loop in Hstep
        as [(token & rest & ? & ->)|[(? & ? & ->)|(? & _ & -> & ->)]];
        [| | |done]; simpl in * |-; simplify_eq.
      * rewrite head_of_snoc.
        apply (inv_generating lossy remote data σ0 AtYield); [done|done| |].
        -- by rewrite <-app_assoc.
        -- simpl. by destruct out.
      * by apply (inv_generating lossy remote data σ0 InAiter).
    + apply leave_at_done_inv in Hstep as (h & run & Hgen & Hd & ->).
      destruct s; simplify_eq/=.
  - destruct a; unfold step in Hstep.
    + (* the task saves the context *)
      rewrite task_step_suspended in Hstep. simpl in Hstep. simplify_eq.
      pose proof (inv_finished lossy remote data σ0 s out q Hq Hok) as Hi.
      rewrite (final_store_saved Herr) in Hi. unfold result_of in Hi.
      rewrite Herr in Hi. rewrite app_nil_r. apply Hi.
    + (* the generator yields a token or leaves the loop *)
      destruct (left_the_loop s) as [->|Hs].
      { apply generate_response_awaiting in Hstep as (? & ? & _). done. }
      apply generate_response_loop in Hstep
        as [(token & rest & ? & ->)|[(? & ? & ->)|(? & ? & _)]];
        [| | |done]; simpl in * |-; simplify_eq.
      * rewrite head_of_snoc.
        apply (inv_completing lossy remote data σ0 AtYield); [done| |].
        -- by rewrite <-app_assoc.
        -- simpl. by destruct out.
      * apply (inv_completing lossy remote data σ0 AtAwait); [done|done|]. by left.
    + (* the generator leaves the loop at the done event *)
      apply leave_at_done_inv in Hstep as (h & run & Hgen & Hd & ->).
      destruct s; simplify_eq/=.
      apply (inv_completing lossy remote data σ0 AtAwait); [done|done|].
      right. by destruct Hlossy.
  - destruct a; unfold step in Hstep.
    + rewrite task_step_suspended in Hstep. simpl in Hstep. simplify_eq.
    + destruct (left_the_loop s) as [->|Hs].
      { apply generate_response_awaiting in Hstep as (res & ? & ->). simplify_eq/=.
        by apply (inv_ended lossy remote data σ0 out q). }
      apply generate_response_loop in Hstep
        as [(token & rest & ? & ->)|[(? & ? & ->)|(? & ? & _)]];
        [| | |done]; simpl in * |-; simplify_eq.
      * rewrite head_of_snoc.
        apply (inv_finished lossy remote data σ0 AtYield).
        -- by rewrite <-app_assoc.
        -- simpl. by destruct out.
      * apply (inv_finished lossy remote data σ0 AtAwait); [done|]. by left.
    + apply leave_at_done_inv in Hstep as (h & run & Hgen & Hd & ->).
      destruct s; simplify_eq/=.
      apply (inv_finished lossy remote data σ0 AtAwait); [done|].
      right. by destruct Hlossy.
  - (* nothing runs once the generator has ended *)
    unfold ended in Hstep. destruct a; simpl in Hstep; destruct result; simplify_eq.
Qed.

Lemma inv_run lossy schedule : ∀ c,
  lossy = true ∨ TheGeneratorAtDone ∉ schedule →
  inv lossy remote data σ0 c → inv lossy remote data σ0 (run_schedule remote schedule c).
Proof.
  induction schedule as [|a schedule IH]; intros c Hlossy Hc; simpl; [done|].
  apply IH.
  - destruct Hlossy as [?|Hnot]; [by left|]. right. intros ?. apply Hnot. by right.
  - destruct (step remote a c) as [c'|] eqn:Hstep; simpl; [|done].
    eapply inv_step; [|done..].
    destruct Hlossy as [?|Hnot]; [by left|]. right. intros ->. apply Hnot. left.
Qed.

Lemma inv_finished_ended lossy c :
  inv lossy remote data σ0 c → finished c = true →
  ∃ out q,
    out ++ q = delivered frags ∧ cut_short lossy out q ∧ c = ended remote data σ0 out.
Proof. destruct 1 as [| |s|s|s|out q]; try (by destruct s); [done..|]. eauto. Qed.

Lemma run_schedule_ended schedule :
  finished (run_schedule remote schedule (accept data σ0)) = true →
  ∃ out q,
    out ++ q = delivered frags ∧ (q = [] ∨ out ≠ []) ∧
    run_schedule remote schedule (accept data σ0) = ended remote data σ0 out.
Proof.
  intros Hfin.
  destruct (inv_finished_ended true _ (inv_run true schedule _ (or_introl eq_refl)
                                         (inv_created true remote data σ0)) Hfin)
    as (out & q & Hq & Hcut & Hc).
  exists out, q. split; [done|]. split; [|done]. destruct Hcut as [?|[_ ?]]; auto.
Qed.


Lemma ended_store out : (ended remote data σ0 out).2 = (final remote data σ0).2.
Proof. done. Qed.

Lemma run_schedule_store schedule :
  finished (run_schedule remote schedule (accept data σ0)) = true →
  (run_schedule remote schedule (accept data σ0)).2 = (final remote data σ0).2.
Proof. intros Hfin. by destruct (run_schedule_ended schedule Hfin) as (out & q & _ & _ & ->). Qed.

Lemma inv_trace lossy c :
  inv lossy remote data σ0 c →
  ∃ out q,
    out ++ q = delivered frags ∧
    trace c.1 `prefix_of` trace (ended remote data σ0 out).1.
Proof.
  assert (∀ out, head_of data σ0 out `prefix_of` trace (ended remote data σ0 out).1)
    as Hhead by (intros out; by eexists).
  destruct 1 as [| |s out q sent todo _ Hsent Hq _|s out q _ Hq _|s out q Hq _|out q Hq _];
    simpl.
  - exists [], (delivered frags). split; [done|]. by eexists.
  - exists [], (delivered frags). split; [done|]. by eexists.
  - exists out, (q ++ delivered todo). split; [|apply Hhead].
    by rewrite app_assoc, Hq, <-delivered_app, Hsent.
  - exists out, q. split; [done|apply Hhead].
  - exists out, q. split; [done|apply Hhead].
  - by exists out, q.
Qed.

End one_request.






(** ** The store under single steps *)

Lemma get_memory_cases cid σ :
  (∃ l, memories (self σ) !! cid = Some l ∧ get_memory cid σ = (l, σ)) ∨
  (memories (self σ) !! cid = None ∧
   ∃ l, l = fresh (dom (heap σ)) ∧ (l ∉ dom (heap σ)) ∧
        (get_memory cid σ).1 = l ∧
        memories (self (get_memory cid σ).2) = <[cid := l]> (memories (self σ)) ∧
        heap (get_memory cid σ).2 = <[l := new_memory]> (heap σ) ∧
        openai_api_key (self (get_memory cid σ).2) = openai_api_key (self σ) ∧
        temperature (self (get_memory cid σ).2) = temperature (self σ)).
Proof.
  unfold get_memory. destruct (memories (self σ) !! cid) as [l|] eqn:Hl.
  - left. by exists l.
  - right. split; [done|]. eexists. repeat split. apply is_fresh.
Qed.

Lemma get_memory_lookup cid σ :
  memories (self (get_memory cid σ).2) !! cid = Some (get_memory cid σ).1.
Proof.
  destruct (get_memory_cases cid σ) as [(l & Hl & ->)|(_ & l & _ & _ & -> & -> & _)];
    [done|]. apply lookup_insert_eq.
Qed.

Lemma get_memory_subseteq cid σ :
  memories (self σ) ⊆ memories (self (get_memory cid σ).2).
Proof.
  destruct (get_memory_cases cid σ) as [(l & Hl & ->)|(Hn & l & _ & _ & _ & -> & _)];
    [done|]. by apply insert_subseteq.
Qed.

Lemma get_memory_wf cid σ : wf σ → wf (get_memory cid σ).2.
Proof.
  intros [Hlive Hinj].
  destruct (get_memory_cases cid σ)
    as [(l & Hl & ->)|(Hn & l & _ & Hfresh & _ & Hm & Hh & _)]; [done|].
  assert (∀ c, memories (self σ) !! c ≠ Some l) as Hunused.
  { intros c Hc. apply Hfresh, elem_of_dom. eauto. }
  split.
  - intros c l'. rewrite Hm, Hh, lookup_insert_is_Some, lookup_insert_Some.
    intros [[_ <-]|[_ Hc]]; [by left|]. destruct (decide (l = l')); eauto.
  - intros c1 c2 l'. rewrite Hm, !lookup_insert_Some.
    intros [[<- <-]|[? H1]] [[<- ?]|[? H2]]; simplify_eq; try done.
    + by destruct (Hunused c2).
    + by destruct (Hunused c1).
    + eauto.
Qed.

Lemma arun_step_heap remote h run mems h' run' evs mems' :
  arun_step remote h run mems = Some (h', run', evs, mems') →
  mems' = mems ∨
  ∃ chain input output,
    run = Completing chain input output ∧
    mems' = alter (save_context input output) (memory chain) mems.
Proof.
  destruct run as [chain input|chain input sent [|token todo] [reason|]
                   |chain input output|result];
    intros H; simplify_eq/=; eauto.
  right. by exists chain, input, output.
Qed.

Lemma arun_step_memory remote h run mems h' run' evs mems' l :
  arun_step remote h run mems = Some (h', run', evs, mems') →
  task_memory run' = Some l → task_memory run = Some l.
Proof.
  destruct run as [chain input|chain input sent [|token todo] [reason|]
                   |chain input output|result];
    intros H; by simplify_eq/=.
Qed.

Lemma generate_response_store r σ r' σ' :
  generate_response (r, σ) = Some (r', σ') →
  σ' = σ ∨ ∃ cid message, gen r = Created cid message ∧ σ' = (get_memory cid σ).2.
Proof.
  simpl. intros Hstep.
  destruct (gen r) as [cid message| h run | h run | h run | |] eqn:Hgen; simplify_eq.
  - right. exists cid, message. split; [done|].
    destruct (get_memory cid σ); by simplify_eq/=.
  - left. destruct (queue h); [destruct (done h)|]; by simplify_eq.
  - left. destruct (queue h); [destruct (done h)|]; by simplify_eq.
  - left. destruct run as [| | |[e|output]]; by simplify_eq.
Qed.

Lemma step_store_change remote a r σ r' σ' :
  step remote a (r, σ) = Some (r', σ') → store_change r σ σ'.
Proof.
  destruct a; unfold step; intros Hstep.
  - apply task_step_inv in Hstep
      as (s & h & run & h' & run' & evs & mems & Hgen & Hrun & ?). simplify_eq.
    destruct (arun_step_heap _ _ _ _ _ _ _ _ Hrun)
      as [->|(chain & input & output & -> & ->)].
    + rewrite store_eta. constructor.
    + apply change_save. rewrite Hgen. by destruct s.
  - apply generate_response_store in Hstep as [->|(cid & message & Hgen & ->)].
    + constructor.
    + by apply change_slot with message.
  - apply leave_at_done_inv in Hstep as (h & run & _ & _ & ?). simplify_eq. constructor.
Qed.

Lemma store_change_subseteq r σ σ' :
  store_change r σ σ' → memories (self σ) ⊆ memories (self σ').
Proof. destruct 1; simpl; [done| |done]. apply get_memory_subseteq. Qed.

Lemma store_change_wf r σ σ' : store_change r σ σ' → wf σ → wf σ'.
Proof.
  destruct 1; [done| |]; [apply get_memory_wf|].
  intros [Hlive Hinj]. split; [|done]. simpl. intros c l Hc.
  destruct (Hlive c l Hc) as [m Hm].
  destruct (decide (memory chain = l)) as [->|Hne].
  - rewrite lookup_alter_eq, Hm. by eexists.
  - rewrite lookup_alter_ne by done. by eexists.
Qed.

Lemma step_subseteq remote a r σ r' σ' :
  step remote a (r, σ) = Some (r', σ') → memories (self σ) ⊆ memories (self σ').
Proof. intros H. eapply store_change_subseteq, step_store_change, H. Qed.

Lemma step_wf remote a r σ r' σ' :
  step remote a (r, σ) = Some (r', σ') → wf σ → wf σ'.
Proof. intros H. eapply store_change_wf, step_store_change, H. Qed.

(** ** The server under any interleaving *)

Lemma sys_do_steps act sys : rtc sys_step sys (sys_do act sys).
Proof.
  destruct act as [remote data|i a]; simpl.
  - apply rtc_once, sys_accept.
  - destruct (inflight sys !! i) as [f|] eqn:Hf; [|done].
    destruct (step (remote_of f) a (req_of f, store sys)) as [[r' σ']|] eqn:Hs; [|done].
    by eapply rtc_once, sys_resume.
Qed.

Lemma sys_run_steps acts : ∀ sys, rtc sys_step sys (sys_run acts sys).
Proof.
  induction acts as [|act acts IH]; intros sys; simpl; [done|].
  etrans; [apply sys_do_steps|apply IH].
Qed.

Lemma bound_to_mono σ σ' f :
  memories (self σ) ⊆ memories (self σ') → bound_to σ f → bound_to σ' f.
Proof.
  intros Hsub. unfold bound_to.
  destruct (gen (req_of f)); try done;
    intros H l Hl; eapply lookup_weaken; eauto.
Qed.

Lemma step_bound_to remote data a r σ r' σ' :
  bound_to σ {| remote_of := remote; data_of := data; req_of := r |} →
  step remote a (r, σ) = Some (r', σ') →
  bound_to σ' {| remote_of := remote; data_of := data; req_of := r' |}.
Proof.
  unfold bound_to. simpl. intros Hb Hstep.
  pose proof (step_subseteq _ _ _ _ _ _ Hstep) as Hsub.
  destruct a; unfold step in Hstep.
  - apply task_step_inv in Hstep
      as (s & h & run & h' & run' & evs & mems & Hgen & Hrun & ?). simplify_eq/=.
    rewrite Hgen in Hb.
    destruct s; simpl in *; intros l Hl;
      eapply lookup_weaken; eauto using arun_step_memory.
  - simpl in Hstep.
    destruct (gen r) as [cid message| h run | h run | h run | |] eqn:Hgen; simplify_eq.
    + pose proof (get_memory_lookup (conversation_id data) σ) as Hl.
      destruct (get_memory (conversation_id data) σ) as [l σ1]; simplify_eq/=.
      by intros ? [= <-].
    + destruct (queue h); [destruct (done h)|]; by simplify_eq/=.
    + destruct (queue h); [destruct (done h)|]; by simplify_eq/=.
    + by destruct run as [| | |[e|output]]; simplify_eq/=.
  - apply leave_at_done_inv in Hstep as (h & run & Hgen & _ & ?). simplify_eq/=.
    by rewrite Hgen in Hb.
Qed.

Lemma sys_step_inv sys sys' : sys_step sys sys' → sys_inv sys → sys_inv sys'.
Proof.
  intros Hstep [Hwf Hbound]. destruct Hstep as [remote data sys|i a f r' σ' sys Hf Hs].
  - split; [done|]. simpl. apply Forall_app. split; [done|].
    by apply Forall_singleton.
  - split; simpl; [by eapply step_wf|].
    pose proof (step_subseteq _ _ _ _ _ _ Hs) as Hsub.
    apply Forall_insert.
    + eapply Forall_impl; [done|]. intros f'. by apply bound_to_mono.
    + eapply step_bound_to; [|done].
      rewrite Forall_lookup in Hbound. specialize (Hbound i f Hf). by destruct f.
Qed.

Lemma boot_inv key : sys_inv (boot key).
Proof. repeat split; try done; simpl; by intros; simplify_map_eq. Qed.

Lemma reachable_inv key sys : rtc sys_step (boot key) sys → sys_inv sys.
Proof.
  intros H. revert sys H. apply rtc_ind_r; [apply boot_inv|].
  intros sys1 sys2 _ Hstep. by apply sys_step_inv.
Qed.

Lemma sys_step_subseteq sys sys' :
  sys_step sys sys' → memories (self (store sys)) ⊆ memories (self (store sys')).
Proof. destruct 1; simpl; [done|]. by eapply step_subseteq. Qed.

Lemma sys_steps_subseteq sys sys' :
  rtc sys_step sys sys' → memories (self (store sys)) ⊆ memories (self (store sys')).
Proof.
  induction 1 as [|sys1 sys2 sys3 H _ IH]; [done|].
  etrans; [by apply sys_step_subseteq|done].
Qed.

(** ** Steps do not depend on foreign memory objects *)

Lemma arun_step_frame remote h run mems h' run' evs mems' l m :
  (∀ l0, task_memory run = Some l0 → l0 ≠ l) →
  arun_step remote h run mems = Some (h', run', evs, mems') →
  arun_step remote h run (<[l := m]> mems) = Some (h', run', evs, <[l := m]> mems').
Proof.
  intros Hne.
  destruct run as [chain input|chain input sent [|token todo] [reason|]
                   |chain input output|result];
    intros H; simplify_eq/=; try done.
  - by rewrite lookup_total_insert_ne by (intros ->; by eapply Hne).
  - by rewrite alter_insert_ne by by apply Hne.
Qed.

Lemma get_memory_frame cid σ l m :
  is_Some (heap σ !! l) →
  get_memory cid (with_memory l m σ)
  = ((get_memory cid σ).1, with_memory l m (get_memory cid σ).2).
Proof.
  intros Hl. unfold get_memory, with_memory. simpl.
  destruct (memories (self σ) !! cid); simpl; [done|].
  rewrite dom_insert_lookup_L by done.
  assert (fresh (dom (heap σ)) ≠ l) as Hne.
  { intros <-. by apply (is_fresh (dom (heap σ))), elem_of_dom. }
  by rewrite insert_insert_ne.
Qed.

Lemma step_frame remote a r σ r' σ' l m :
  is_Some (heap σ !! l) →
  (∀ run l0, task_of (gen r) = Some run → task_memory run = Some l0 → l0 ≠ l) →
  step remote a (r, σ) = Some (r', σ') →
  step remote a (r, with_memory l m σ) = Some (r', with_memory l m σ').
Proof.
  intros Hl Hne Hstep. destruct a; simpl in *.
  - destruct (gen r) as [| h run | h run | h run | |] eqn:Hgen; simplify_eq;
      destruct (arun_step remote h run (heap σ)) as [[[[h' run'] evs] mems]|] eqn:Hrun;
      simplify_eq/=;
      by erewrite arun_step_frame by eauto.
  - destruct (gen r) as [cid message| h run | h run | h run | |] eqn:Hgen; simplify_eq.
    + rewrite get_memory_frame by done.
      destruct (get_memory cid σ); by simplify_eq/=.
    + destruct (queue h); [destruct (done h)|]; by simplify_eq/=.
    + destruct (queue h); [destruct (done h)|]; by simplify_eq/=.
    + by destruct run as [| | |[e|output]]; simplify_eq/=.
  - destruct (gen r) as [| | h run | | |]; try done.
    destruct (done h); by simplify_eq/=.
Qed.

Lemma store_change_heap r σ σ' l :
  is_Some (heap σ !! l) →
  (∀ run l0, task_of (gen r) = Some run → task_memory run = Some l0 → l0 ≠ l) →
  store_change r σ σ' → heap σ' !! l = heap σ !! l.
Proof.
  intros Hl Hne [|cid message Hgen|chain input output Hgen]; [done| |].
  - destruct (get_memory_cases cid σ)
      as [(l0 & _ & ->)|(_ & l0 & _ & Hfresh & _ & _ & -> & _)]; [reflexivity|].
    apply lookup_insert_ne. intros ->. by apply Hfresh, elem_of_dom.
  - simpl. apply lookup_alter_ne.
    by apply (Hne (Completing chain input output)).
Qed.

(** ** The memory after a completed exchange *)

Lemma history_after_save cid input output σ l :
  memories (self σ) !! cid = Some l → is_Some (heap σ !! l) →
  history_of cid
    {| self := self σ; heap := alter (save_context input output) l (heap σ) |}
  = messages (heap σ !!! l) ++ [HumanMessage input; AIMessage output].
Proof.
  intros Hcid [m Hm]. unfold history_of. simpl. rewrite Hcid.
  rewrite lookup_total_alter_eq, Hm. simpl.
  by rewrite (lookup_total_correct _ _ _ Hm).
Qed.

Lemma history_after_final remote data σ :
  wf σ →
  failure (answer remote data σ) = None →
  history_of (conversation_id data) (final remote data σ).2
  = history_of (conversation_id data) σ
    ++ [HumanMessage (message data);
        AIMessage (join (fragments (answer remote data σ)))].
Proof.
  intros Hwf Hok. unfold final, ended. simpl. rewrite Hok. simpl.
  pose proof (get_memory_lookup (conversation_id data) σ) as Hl.
  destruct (get_memory_wf (conversation_id data) σ Hwf) as [Hlive _].
  rewrite (history_after_save _ _ _ _ _ Hl (Hlive _ _ Hl)).
  by rewrite <-get_memory_history.
Qed.

Lemma body_of_chunks out : body_of (BodyChunk <$> out) = out.
Proof. induction out as [|token out IH]; simpl; [done|]. by f_equal. Qed.

Lemma body_of_ended remote data σ out :
  body_of (trace (ended remote data σ out).1) = out.
Proof.
  unfold ended, body_of. simpl. rewrite omap_app. fold body_of.
  rewrite body_of_chunks. destruct (result_of _ _); simpl; apply app_nil_r.
Qed.


Lemma prompts_of_ended remote data σ out :
  prompts_of (trace (ended remote data σ out).1) = [submitted data σ].
Proof.
  unfold ended, prompts_of. simpl. f_equal. rewrite omap_app.
  assert (∀ tokens, omap (λ ev, match ev with LlmCall _ p => Some p | _ => None end)
                      (BodyChunk <$> tokens) = []) as ->.
  { intros tokens. induction tokens; simpl; done. }
  by destruct (result_of _ _).
Qed.

(** ** Settings and start-up *)

Lemma get_settings_hit env c s :
  cached c = Some s →
  get_settings env c
  = (inr s, {| cached := Some s; hits := S (hits c); misses := misses c |}).
Proof. unfold get_settings. by intros ->. Qed.

Lemma get_settings_calls_hit envs : ∀ c s,
  cached c = Some s →
  (get_settings_calls envs c).1 = replicate (length envs) (inr s) ∧
  cached (get_settings_calls envs c).2 = Some s ∧
  misses (get_settings_calls envs c).2 = misses c.
Proof.
  induction envs as [|env envs IH]; intros c s Hc; simpl; [done|].
  rewrite (get_settings_hit env c s Hc).
  destruct (IH {| cached := Some s; hits := S (hits c); misses := misses c |} s eq_refl)
    as (Hr & Hs & Hm).
  destruct (get_settings_calls envs _) as [rs c']. simpl in *. by rewrite Hr.
Qed.

Lemma get_settings_first env s c :
  get_settings env cache_empty = (inr s, c) → cached c = Some s ∧ misses c = 1.
Proof.
  unfold get_settings. simpl. destruct (Settings_init env 0); by intros [= <- <-].
Qed.

Lemma Settings_init_missing env id :
  os_environ env !! "openai_api_key" = None →
  (∀ file, env_file env = Some file → file !! "openai_api_key" = None) →
  Settings_init env id = inl (ValidationError "openai_api_key").
Proof.
  intros Henv Hfile. unfold Settings_init. rewrite Henv.
  destruct (env_file env) as [file|]; simpl; [|done]. by rewrite (Hfile file).
Qed.

Lemma module_init_fails env e :
  Settings_init env 0 = inl e → module_init env = inl e.
Proof. intros H. unfold module_init, get_settings. simpl. by rewrite H. Qed.


Lemma handle_started a app s :
  cached (settings_cache app) = Some s →
  (handle a app).1
  = trace (serve (remote_then a) (request a) (streaming_conversation_chain app)).1 ∧
  cached (settings_cache (handle a app).2) = Some s ∧
  misses (settings_cache (handle a app).2) = misses (settings_cache app).
Proof.
  intros Hc. unfold handle. rewrite (get_settings_hit _ _ s Hc).
  by destruct (serve _ _ _).
Qed.

Lemma handle_all_started arrivals : ∀ app s,
  cached (settings_cache app) = Some s →
  Forall (λ tr, ∃ remote data σ, tr = trace (serve remote data σ).1)
         (handle_all arrivals app).1 ∧
  cached (settings_cache (handle_all arrivals app).2) = Some s ∧
  misses (settings_cache (handle_all arrivals app).2) = misses (settings_cache app).
Proof.
  induction arrivals as [|a arrivals IH]; intros app s Hc; simpl; [done|].
  destruct (handle_started a app s Hc) as (Htr & Hc' & Hm).
  destruct (handle a app) as [tr app'] eqn:Ha. simpl in *.
  destruct (IH app' s Hc') as (Hall & Hc'' & Hm').
  destruct (handle_all arrivals app') as [trs app'']. simpl in *.
  split; [|split; [done|congruence]]. constructor; [|done]. subst tr. eauto.
Qed.

(** C10: after a first call of [get_settings] that returned, every later
    call returns the settings object that first call cached (the same
    identity, the same field), whatever the environment and the
    environment file have become, and the wrapped function (which reads
    them) has run exactly once.  So it is in the process: when the import
    made that first call, the object is still the cached one after any
    number of requests, and the wrapped function has run once. *)
Theorem get_settings_idempotent env settings c envs :
  get_settings env cache_empty = (inr settings, c) →
  (get_settings_calls envs c).1 = replicate (length envs) (inr settings) ∧
  cached (get_settings_calls envs c).2 = Some settings ∧
  misses (get_settings_calls envs c).2 = 1 ∧
  ∀ arrivals, ∃ responses app,
    main env arrivals = inr (responses, app) ∧
    cached (settings_cache app) = Some settings ∧
    misses (settings_cache app) = 1.
Proof.
  intros Hfirst. destruct (get_settings_first env settings c Hfirst) as [Hc Hm].
  destruct (get_settings_calls_hit envs c settings Hc) as (Hr & Hs & Hmiss).
  rewrite Hr, Hs, Hmiss. repeat split; try done.
  intros arrivals. unfold main, module_init. rewrite Hfirst.
  match goal with |- context [handle_all arrivals ?app0] =>
    destruct (handle_all_started arrivals app0 settings Hc) as (_ & Hc' & Hm');
    destruct (handle_all arrivals app0) as [responses app] end.
  exists responses, app. simpl in *. repeat split; congruence.
Qed.

(** C5: when the API key is neither in the environment nor in the
    environment file, importing the module raises a validation error, and
    the process ends with it: no request is answered. *)
Theorem missing_api_key_prevents_startup env arrivals :
  os_environ env !! "openai_api_key" = None →
  (∀ file, env_file env = Some file → file !! "openai_api_key" = None) →
  module_init env = inl (ValidationError "openai_api_key") ∧
  main env arrivals = inl (ValidationError "openai_api_key").
Proof.
  intros Henv Hfile.
  pose proof (module_init_fails env _ (Settings_init_missing env 0 Henv Hfile)) as Hinit.
  split; [done|]. unfold main. by rewrite Hinit.
Qed.

(** ** Requests *)


Lemma ended_trace remote data σ out :
  trace (ended remote data σ out).1
  = [ResponseStart 200 "text/event-stream";
     LlmCall (make_llm (self σ)) (submitted data σ)]
    ++ (BodyChunk <$> out)
    ++ [match failure (answer remote data σ) with
        | None => BodyEnd
        | Some reason => Aborted (RemoteError reason)
        end].
Proof. unfold ended, head_of. simpl. by destruct (failure _). Qed.

Lemma ended_gen remote data σ out :
  gen (ended remote data σ out).1
  = match failure (answer remote data σ) with
    | None => Returned
    | Some reason => Raised (RemoteError reason)
    end.
Proof. unfold ended. simpl. by destruct (failure _). Qed.


Lemma final_trace remote data σ :
  trace (final remote data σ).1
  = [ResponseStart 200 "text/event-stream";
     LlmCall (make_llm (self σ)) (submitted data σ)]
    ++ (BodyChunk <$> delivered (fragments (answer remote data σ)))
    ++ [match failure (answer remote data σ) with
        | None => BodyEnd
        | Some reason => Aborted (RemoteError reason)
        end].
Proof. apply ended_trace. Qed.


Lemma inv_trace_start lossy remote data σ c :
  inv lossy remote data σ c →
  ∃ rest, trace c.1 = ResponseStart 200 "text/event-stream" :: rest.
Proof. destruct 1; simpl; unfold ended, head_of; simpl; eauto. Qed.

Lemma run_trace_shape remote data σ schedule :
  ∃ rest out,
    trace (run_schedule remote schedule (accept data σ)).1
    = ResponseStart 200 "text/event-stream" :: rest ∧
    out `prefix_of` delivered (fragments (answer remote data σ)) ∧
    rest `prefix_of`
      LlmCall (make_llm (self σ)) (submitted data σ)
      :: (BodyChunk <$> out)
         ++ [match failure (answer remote data σ) with
             | None => BodyEnd
             | Some reason => Aborted (RemoteError reason)
             end].
Proof.
  pose proof (inv_run remote data σ true schedule _ (or_introl eq_refl)
                (inv_created true remote data σ)) as Hinv.
  destruct (inv_trace _ _ _ _ _ Hinv) as (out & q & Hq & Hpre).
  destruct (inv_trace_start _ _ _ _ _ Hinv) as [rest Hrest].
  exists rest, out. split; [done|]. split; [by exists q|].
  rewrite ended_trace, Hrest in Hpre. simpl in Hpre.
  by apply prefix_cons_inv_2 in Hpre.
Qed.




(** C8, as amended: when the model produces at least one non-empty
    fragment, the body of a response that has ended is non-empty
    (whatever the message). *)
Theorem stream_non_empty remote data σ schedule token :
  token ∈ fragments (answer remote data σ) →
  token ≠ "" →
  finished (run_schedule remote schedule (accept data σ)) = true →
  join (body_of (trace (run_schedule remote schedule (accept data σ)).1)) ≠ "".
Proof.
  intros Hin Hne Hfin.
  destruct (run_schedule_ended _ _ _ _ Hfin) as (out & q & Hq & Hcut & ->).
  rewrite body_of_ended.
  pose proof (elem_of_delivered _ _ Hin Hne) as Hin'.
  pose proof (delivered_non_empty (fragments (answer remote data σ))) as Hall.
  rewrite <-Hq in Hin', Hall. apply Forall_app in Hall as [Hall _].
  apply join_non_empty; [|done].
  destruct Hcut as [->|?]; [|done]. rewrite app_nil_r in Hin'.
  intros ->. by apply elem_of_nil in Hin'.
Qed.

(** C9: the handler returns a response of status 200 around a generator
    that has not started, without touching the store or calling the
    model; under every schedule, and at every moment, what the request has
    made observable begins with that status line, and the call to the
    model, the chunks (fragments of the model, in its order) and a failure
    of the call come after it: no response reports a server error. *)
Theorem status_fixed_before_generation remote data σ schedule :
  accept data σ
  = ({| gen := Created (conversation_id data) (message data);
        trace := [ResponseStart 200 "text/event-stream"] |}, σ) ∧
  (∃ rest out,
     trace (run_schedule remote schedule (accept data σ)).1
     = ResponseStart 200 "text/event-stream" :: rest ∧
     out `prefix_of` delivered (fragments (answer remote data σ)) ∧
     rest `prefix_of`
       LlmCall (make_llm (self σ)) (submitted data σ)
       :: (BodyChunk <$> out)
          ++ [match failure (answer remote data σ) with
              | None => BodyEnd
              | Some reason => Aborted (RemoteError reason)
              end]) ∧
  ¬ server_error_response (trace (run_schedule remote schedule (accept data σ)).1).
Proof.
  split; [done|].
  destruct (run_trace_shape remote data σ schedule) as (rest & out & Hrest & Hout & Hpre).
  split; [by exists rest, out|].
  rewrite Hrest. intros (status & media & rest' & [= <- _ _] & Hle). lia.
Qed.

(** ** Failures *)




(** ** Memory *)

(** C1: on a well-formed store, once a first request on a conversation
    has ended normally, the memory of the conversation is what it was
    before, followed by the first message and by the model's response to
    it (the fragments the model produced, joined); and the one context
    submitted to the model by a second request on the same conversation is
    the system message, that memory, and the second message. *)
Theorem memory_accumulates remote1 remote2 cid message1 message2 σ schedule1 schedule2 :
  let first :=
    run_schedule remote1 schedule1
      (accept {| conversation_id := cid; message := message1 |} σ) in
  let second :=
    run_schedule remote2 schedule2
      (accept {| conversation_id := cid; message := message2 |} first.2) in
  let exchange :=
    [HumanMessage message1;
     AIMessage (join (fragments
                        (answer remote1 {| conversation_id := cid; message := message1 |}
                           σ)))] in
  wf σ →
  gen first.1 = Returned →
  finished second = true →
  history_of cid first.2 = history_of cid σ ++ exchange ∧
  prompts_of (trace second.1)
  = [[SystemMessage SYSTEM_TEMPLATE]
     ++ (history_of cid σ ++ exchange) ++ [HumanMessage message2]].
Proof.
  intros first second exchange Hwf Hret Hfin.
  assert (finished first = true) as Hfin1 by (unfold finished; by rewrite Hret).
  destruct (run_schedule_ended _ _ _ _ Hfin1) as (out & q & _ & _ & Hfirst).
  fold first in Hfirst.
  assert (failure (answer remote1 {| conversation_id := cid; message := message1 |} σ)
          = None) as Hok.
  { rewrite Hfirst, ended_gen in Hret. by destruct (failure _). }
  assert (history_of cid first.2 = history_of cid σ ++ exchange) as Hhist.
  { rewrite Hfirst, ended_store.
    apply (history_after_final remote1
             {| conversation_id := cid; message := message1 |} σ Hwf Hok). }
  split; [done|].
  destruct (run_schedule_ended _ _ _ _ Hfin) as (out2 & q2 & _ & _ & Hsecond).
  fold second in Hsecond. rewrite Hsecond, prompts_of_ended.
  unfold submitted. simpl. by rewrite Hhist.
Qed.

(** C4: the first resumption of the generator, which precedes the call to
    the model (the task is only scheduled, and nothing is added to the
    trace), leaves the chain holding the memory stored under the
    identifier.  Without a slot, that memory is a new object, empty, and
    the mapping gains exactly this entry; with a slot, it is the object
    already stored and the store is unchanged.  The rest of the request
    does not change the mapping. *)
Theorem memory_slot_created_lazily cid message tr σ :
  ∃ memory σ',
    generate_response ({| gen := Created cid message; trace := tr |}, σ)
    = Some ({| gen := Iterating new_handler
                        (Scheduled {| memory := memory; llm := make_llm (self σ) |}
                           message);
               trace := tr |}, σ') ∧
    memories (self σ') !! cid = Some memory ∧
    match memories (self σ) !! cid with
    | None =>
        (memory ∉ dom (heap σ)) ∧
        memories (self σ') = <[cid := memory]> (memories (self σ)) ∧
        heap σ' = <[memory := new_memory]> (heap σ)
    | Some existing => memory = existing ∧ σ' = σ
    end ∧
    ∀ remote,
      memories (self (serve remote {| conversation_id := cid; message := message |} σ).2)
      = memories (self σ').
Proof.
  exists (get_memory cid σ).1, (get_memory cid σ).2. split; [|split; [|split]].
  - simpl. by destruct (get_memory cid σ).
  - apply get_memory_lookup.
  - destruct (get_memory_cases cid σ)
      as [(l & Hl & Hget)|(Hn & l & _ & Hfresh & Hl & Hm & Hh & _)].
    + by rewrite Hl, Hget.
    + by rewrite Hn, Hl.
  - intros remote. rewrite serve_final. unfold final, ended. simpl.
    by destruct (result_of _ _).
Qed.

(** ** Conversations *)

(** C7: along any run of the server (requests accepted at any time, their
    tasks and generators resumed in any order), an entry of the mapping
    stays: the identifier keeps the memory object it was given. *)
Theorem memories_only_grow sys sys' cid memory :
  rtc sys_step sys sys' →
  memories (self (store sys)) !! cid = Some memory →
  memories (self (store sys')) !! cid = Some memory.
Proof.
  intros Hsteps Hcid. eapply lookup_weaken; [done|]. by apply sys_steps_subseteq.
Qed.

(** C2: in a server reached from its start, when a request in flight is
    resumed, an identifier other than the request's keeps its memory
    object, which is not the one of the request and whose content is
    unchanged; and the step is the same, with the same effect on the rest
    of the store, whatever the content of that object. *)
Theorem conversations_do_not_share_memory key sys i f a r' σ' other memory :
  rtc sys_step (boot key) sys →
  inflight sys !! i = Some f →
  step (remote_of f) a (req_of f, store sys) = Some (r', σ') →
  other ≠ conversation_id (data_of f) →
  memories (self (store sys)) !! other = Some memory →
  memories (self σ') !! other = Some memory ∧
  memories (self σ') !! conversation_id (data_of f) ≠ Some memory ∧
  heap σ' !! memory = heap (store sys) !! memory ∧
  ∀ content,
    step (remote_of f) a (req_of f, with_memory memory content (store sys))
    = Some (r', with_memory memory content σ').
Proof.
  intros Hreach Hf Hstep Hother Hmem.
  destruct (reachable_inv key sys Hreach) as [Hwf Hbound].
  rewrite Forall_lookup in Hbound. specialize (Hbound i f Hf).
  pose proof (step_subseteq _ _ _ _ _ _ Hstep) as Hsub.
  pose proof (step_wf _ _ _ _ _ _ Hstep Hwf) as [_ Hinj'].
  destruct Hwf as [Hlive Hinj].
  assert (∀ run l0, task_of (gen (req_of f)) = Some run →
                    task_memory run = Some l0 → l0 ≠ memory) as Hne.
  { intros run l0 Hgen Hrun ->. apply Hother. unfold bound_to in Hbound.
    destruct (gen (req_of f)); simplify_eq/=; eapply Hinj; eauto. }
  pose proof (lookup_weaken _ _ _ _ Hmem Hsub) as Hmem'.
  split; [done|]. split; [|split].
  - intros Hcid. apply Hother. by eapply Hinj'.
  - eapply store_change_heap; eauto using step_store_change.
  - intros content. eapply step_frame; eauto.
Qed.

(** ** The theorems at sample inputs *)

Lemma get_settings_idempotent_witness :
  (get_settings_calls [bare_env; key_env] (get_settings key_env cache_empty).2).1
  = [inr {| settings_id := 0; settings_openai_api_key := "sk-test" |};
     inr {| settings_id := 0; settings_openai_api_key := "sk-test" |}] ∧
  cached (get_settings_calls [bare_env; key_env] (get_settings key_env cache_empty).2).2
  = Some {| settings_id := 0; settings_openai_api_key := "sk-test" |} ∧
  misses (get_settings_calls [bare_env; key_env] (get_settings key_env cache_empty).2).2
  = 1.
Proof.
  destruct (get_settings_idempotent key_env
              {| settings_id := 0; settings_openai_api_key := "sk-test" |}
              (get_settings key_env cache_empty).2 [bare_env; key_env])
    as (Hresults & Hcached & Hmisses & _).
  - vm_compute. reflexivity.
  - exact (conj Hresults (conj Hcached Hmisses)).
Defined.

Lemma missing_api_key_prevents_startup_witness :
  module_init bare_env = inl (ValidationError "openai_api_key") ∧
  main bare_env
    [{| env_then := key_env; remote_then := steady_remote; request := cat_request |}]
  = inl (ValidationError "openai_api_key").
Proof.
  apply (missing_api_key_prevents_startup bare_env).
  - reflexivity.
  - intros file H. injection H as <-. reflexivity.
Defined.



Lemma stream_non_empty_witness :
  join (body_of (trace (run_schedule steady_remote (round_robin 8)
                          (accept cat_request started)).1)) ≠ "".
Proof.
  apply (stream_non_empty steady_remote cat_request started (round_robin 8) "are ").
  - right. left.
  - discriminate.
  - vm_compute. reflexivity.
Defined.

(** C8 as stated fails: a model whose only fragment is the empty string
    produces a fragment, and the body is empty. *)
Lemma empty_fragment_empty_stream :
  ¬ (∀ remote data σ schedule,
       message data ≠ "" →
       fragments (answer remote data σ) ≠ [] →
       finished (run_schedule remote schedule (accept data σ)) = true →
       join (body_of (trace (run_schedule remote schedule (accept data σ)).1)) ≠ "").
Proof.
  intros H.
  apply (H silent_remote cat_request started (round_robin 8)); [done|done| |];
    vm_compute; reflexivity.
Qed.



Lemma memory_accumulates_witness :
  prompts_of (trace (run_schedule steady_remote (round_robin 8)
    (accept cat_followup
       (run_schedule steady_remote (round_robin 8) (accept cat_request started)).2)).1)
  = [[SystemMessage SYSTEM_TEMPLATE;
      HumanMessage "what's their size?"; AIMessage "Cats are small.";
      HumanMessage "and their weight?"]].
Proof.
  destruct (memory_accumulates steady_remote steady_remote "cat-conversation"
              "what's their size?" "and their weight?" started
              (round_robin 8) (round_robin 8)) as [_ H].
  - apply boot_inv.
  - vm_compute. reflexivity.
  - vm_compute. reflexivity.
  - etrans; [exact H|]. vm_compute. reflexivity.
Defined.

Lemma memories_only_grow_witness :
  memories (self (store (sys_run [Resume 1 TheGenerator; Resume 0 TheTask]
                           two_conversations))) !! "cat-conversation" = Some 0.
Proof.
  apply (memories_only_grow two_conversations).
  - apply sys_run_steps.
  - vm_compute. reflexivity.
Defined.

Lemma conversations_do_not_share_memory_witness :
  memories (self dog_started.2) !! "cat-conversation" = Some 0 ∧
  memories (self dog_started.2) !! "dog-conversation" ≠ Some 0 ∧
  heap dog_started.2 !! 0 = heap (store two_conversations) !! 0 ∧
  ∀ content,
    step steady_remote TheGenerator
      (req_of dog_inflight, with_memory 0 content (store two_conversations))
    = Some (dog_started.1, with_memory 0 content dog_started.2).
Proof.
  apply (conversations_do_not_share_memory "sk-test" two_conversations 1 dog_inflight
           TheGenerator dog_started.1 dog_started.2 "cat-conversation" 0).
  - apply sys_run_steps.
  - vm_compute. reflexivity.
  - vm_compute. reflexivity.
  - discriminate.
  - vm_compute. reflexivity.
Defined.

(** ** Histories under single steps *)

Lemma store_change_prefix r σ σ' l m :
  store_change r σ σ' → heap σ !! l = Some m →
  ∃ m', heap σ' !! l = Some m' ∧ messages m `prefix_of` messages m'.
Proof.
  intros [|cid message Hgen|chain input output Hgen] Hl.
  - by exists m.
  - exists m. split; [|done].
    destruct (get_memory_cases cid σ)
      as [(l0 & _ & ->)|(_ & l0 & _ & Hfresh & _ & _ & -> & _)]; [done|].
    rewrite lookup_insert_ne; [done|]. intros ->. apply Hfresh, elem_of_dom. eauto.
  - simpl. destruct (decide (memory chain = l)) as [->|Hne].
    + exists (save_context input output m). rewrite lookup_alter_eq, Hl.
      split; [done|]. by eexists.
    + exists m. by rewrite lookup_alter_ne.
Qed.

Lemma store_change_tight r σ σ' : store_change r σ σ' → tight σ → tight σ'.
Proof.
  intros [|cid message Hgen|chain input output Hgen] Htight; [done| |].
  - destruct (get_memory_cases cid σ)
      as [(l0 & _ & ->)|(Hnone & l0 & _ & _ & _ & Hm & Hh & _)]; [done|].
    intros l. rewrite Hm, Hh, lookup_insert_is_Some.
    intros [<-|[Hne Hl]].
    + exists cid. apply lookup_insert_eq.
    + destruct (Htight l Hl) as [cid' Hcid']. exists cid'.
      rewrite lookup_insert_ne; [done|]. intros <-. congruence.
  - intros l. simpl. rewrite lookup_alter_is_Some. apply Htight.
Qed.

Lemma turns_of_snoc turns input output :
  turns_of turns ++ exchange input output = turns_of (turns ++ [(input, output)]).
Proof. unfold turns_of. by rewrite bind_app. Qed.

Lemma store_change_shape key r σ σ' :
  store_change r σ σ' → store_shape key σ → store_shape key σ'.
Proof.
  intros [|cid message Hgen|chain input output Hgen] (Hkey & Htemp & Hturns); [done| |].
  - destruct (get_memory_cases cid σ)
      as [(l0 & _ & ->)|(_ & l0 & _ & _ & _ & _ & Hh & Hk & Ht)]; [done|].
    split; [congruence|]. split; [congruence|].
    intros l m. rewrite Hh, lookup_insert_Some.
    intros [[_ <-]|[_ Hl]]; [by exists []|by eapply Hturns].
  - split; [done|]. split; [done|]. simpl. intros l m.
    rewrite lookup_alter_Some.
    intros [(_ & m0 & Hl & ->)|[_ Hl]]; [|by eapply Hturns].
    destruct (Hturns _ _ Hl) as [turns Hm]. exists (turns ++ [(input, output)]).
    simpl. by rewrite Hm, <-turns_of_snoc.
Qed.

Lemma lookup_total_shape key σ l :
  store_shape key σ → ∃ turns, messages (heap σ !!! l) = turns_of turns.
Proof.
  intros (_ & _ & Hturns). rewrite lookup_total_alt.
  destruct (heap σ !! l) as [m|] eqn:Hl; simpl; [by eapply Hturns|by exists []].
Qed.

Lemma step_req_shape key remote a r σ r' σ' :
  store_shape key σ → req_shape key r →
  step remote a (r, σ) = Some (r', σ') → req_shape key r'.
Proof.
  intros Hσ [Htrace Hchain] Hstep. destruct a; simpl in Hstep.
  - destruct (gen r) as [| h run | h run | h run | |] eqn:Hgen; simplify_eq;
      (destruct run as [chain input|chain input sent [|token todo] [reason|]
                        |chain input output|result]; simplify_eq/=;
       (split; [|done]); rewrite ?app_nil_r; try done;
       apply Forall_app; split; [done|]; apply Forall_singleton; split;
       [by apply Hchain|];
       destruct (lookup_total_shape key σ (memory chain) Hσ) as [turns Hm];
       exists turns, input; unfold CHAT_PROMPT_TEMPLATE, load_memory_variables;
       by rewrite Hm).
  - destruct (gen r) as [cid message| h run | h run | h run | |] eqn:Hgen; simplify_eq.
    + destruct (get_memory cid σ) as [l σ1]; simplify_eq/=. split; [done|].
      intros chain [= <-]. simpl. destruct Hσ as (Hkey & Htemp & _).
      unfold configured_client, make_llm. simpl. by rewrite Hkey, Htemp.
    + destruct (queue h); [destruct (done h)|]; simplify_eq/=.
      * by split.
      * split; [|done]. apply Forall_app. split; [done|]. by apply Forall_singleton.
    + destruct (queue h); [destruct (done h)|]; simplify_eq/=.
      * by split.
      * by split.
      * split; [|done]. apply Forall_app. split; [done|]. by apply Forall_singleton.
    + destruct run as [| | |[e|output]]; simplify_eq/=;
        (split; [|done]); apply Forall_app; (split; [done|]);
        by apply Forall_singleton.
  - destruct (gen r) as [| | h run | | |] eqn:Hgen; try done.
    destruct (done h); simplify_eq/=. by split.
Qed.

Lemma sys_step_calls key sys sys' :
  sys_step sys sys' → calls_inv key sys → calls_inv key sys'.
Proof.
  intros Hstep [Hσ Hreqs]. destruct Hstep as [remote data sys|i a f r' σ' sys Hf Hs].
  - split; [done|]. simpl. apply Forall_app. split; [done|].
    apply Forall_singleton. split; simpl; [|done].
    by apply Forall_singleton.
  - split; simpl.
    + eapply store_change_shape; eauto using step_store_change.
    + apply Forall_insert; [done|]. simpl.
      rewrite Forall_lookup in Hreqs. eapply step_req_shape; eauto.
Qed.

Lemma boot_calls key : calls_inv key (boot key).
Proof. repeat split; by try done. Qed.

Lemma reachable_calls key sys : rtc sys_step (boot key) sys → calls_inv key sys.
Proof.
  intros H. revert sys H. apply rtc_ind_r; [apply boot_calls|].
  intros sys1 sys2 _ Hstep. by apply sys_step_calls.
Qed.

Lemma reachable_tight key sys : rtc sys_step (boot key) sys → tight (store sys).
Proof.
  intros H. revert sys H. apply rtc_ind_r.
  - intros l. simpl. rewrite lookup_empty. by intros [? ?].
  - intros sys1 sys2 _ Hstep Ht. destruct Hstep; simpl; [done|].
    eapply store_change_tight; eauto using step_store_change.
Qed.

(** ** The effect of a whole request *)

Lemma run_schedule_wf remote schedule : ∀ c, wf c.2 → wf (run_schedule remote schedule c).2.
Proof.
  induction schedule as [|a schedule IH]; intros [r σ] Hwf; simpl; [done|].
  apply IH. destruct (step remote a (r, σ)) as [[r' σ']|] eqn:Hstep; simpl; [|done].
  by eapply step_wf.
Qed.


Lemma get_memory_history_other cid cid' σ :
  wf σ → history_of cid' (get_memory cid σ).2 = history_of cid' σ.
Proof.
  intros [Hlive _]. unfold history_of.
  destruct (get_memory_cases cid σ)
    as [(l & _ & ->)|(Hnone & l & _ & Hfresh & _ & Hm & Hh & _)]; [done|].
  rewrite Hm, Hh. destruct (decide (cid = cid')) as [<-|Hne].
  - by rewrite lookup_insert_eq, Hnone, lookup_total_insert_eq.
  - rewrite lookup_insert_ne by done.
    destruct (memories (self σ) !! cid') as [l'|] eqn:Hl'; [|done].
    rewrite lookup_total_insert_ne; [done|].
    intros ->. by apply Hfresh, elem_of_dom, (Hlive cid').
Qed.

Lemma final_history remote data σ cid :
  wf σ →
  history_of cid (final remote data σ).2
  = history_of cid σ
    ++ (if decide (conversation_id data = cid)
        then match failure (answer remote data σ) with
             | None => exchange (message data) (join (fragments (answer remote data σ)))
             | Some _ => []
             end
        else []).
Proof.
  intros Hwf. destruct (failure (answer remote data σ)) as [reason|] eqn:Hfail.
  - replace (if decide (conversation_id data = cid) then [] else [])
      with (@nil BaseMessage) by by destruct (decide _).
    unfold final, ended. rewrite Hfail, app_nil_r. simpl.
    by apply get_memory_history_other.
  - destruct (decide (conversation_id data = cid)) as [<-|Hne].
    + by apply history_after_final.
    + rewrite app_nil_r, <-(get_memory_history_other (conversation_id data) cid σ Hwf).
      unfold final, ended. rewrite Hfail. simpl. unfold history_of. simpl.
      destruct (memories (self (get_memory (conversation_id data) σ).2) !! cid)
        as [l'|] eqn:Hl'; [|done].
      rewrite lookup_total_alter_ne; [done|]. intros Heq. apply Hne.
      destruct (get_memory_wf (conversation_id data) σ Hwf) as [_ Hinj].
      eapply Hinj; [apply get_memory_lookup|by rewrite Heq].
Qed.

Lemma final_keys remote data σ :
  dom (memories (self (final remote data σ).2))
  = {[conversation_id data]} ∪ dom (memories (self σ)).
Proof.
  assert (memories (self (final remote data σ).2)
          = memories (self (get_memory (conversation_id data) σ).2)) as ->.
  { unfold final, ended. simpl. by destruct (result_of _ _). }
  destruct (get_memory_cases (conversation_id data) σ)
    as [(l & Hl & ->)|(_ & l & _ & _ & _ & -> & _)]; simpl.
  - apply (elem_of_dom_2 (memories (self σ))) in Hl. symmetry.
    by apply subseteq_union_1_L, singleton_subseteq_l.
  - apply dom_insert_L.
Qed.

Lemma final_options remote data σ :
  openai_api_key (self (final remote data σ).2) = openai_api_key (self σ) ∧
  temperature (self (final remote data σ).2) = temperature (self σ).
Proof.
  assert (self (final remote data σ).2
          = self (get_memory (conversation_id data) σ).2) as ->.
  { unfold final, ended. simpl. by destruct (result_of _ _). }
  destruct (get_memory_cases (conversation_id data) σ)
    as [(l & Hl & ->)|(_ & l & _ & _ & _ & _ & _ & -> & ->)]; by simpl.
Qed.

Lemma final_calls remote data σ client prompt :
  LlmCall client prompt ∈ trace (final remote data σ).1 →
  client = make_llm (self σ) ∧ prompt = submitted data σ.
Proof.
  rewrite final_trace, !elem_of_app, list_elem_of_fmap, !elem_of_cons.
  intros [[|[[= -> ->]|[]%elem_of_nil]]|[(token & ? & _)|[|[]%elem_of_nil]]];
    try done.
  by destruct (failure _).
Qed.



(** ** The process over its requests *)

Lemma handle_serve a app s :
  cached (settings_cache app) = Some s →
  (handle a app).1
  = trace (final (remote_then a) (request a) (streaming_conversation_chain app)).1 ∧
  streaming_conversation_chain (handle a app).2
  = (final (remote_then a) (request a) (streaming_conversation_chain app)).2 ∧
  cached (settings_cache (handle a app).2) = Some s.
Proof.
  intros Hc. unfold handle. rewrite (get_settings_hit _ _ s Hc), serve_final.
  by destruct (final _ _ _).
Qed.

Lemma handle_all_cons a arrivals app :
  handle_all (a :: arrivals) app
  = ((handle a app).1 :: (handle_all arrivals (handle a app).2).1,
     (handle_all arrivals (handle a app).2).2).
Proof.
  simpl. destruct (handle a app) as [tr app']. simpl.
  by destruct (handle_all arrivals app').
Qed.


Lemma handle_all_keys arrivals : ∀ app s,
  cached (settings_cache app) = Some s →
  dom (memories (self (streaming_conversation_chain (handle_all arrivals app).2)))
  = list_to_set ((λ a, conversation_id (request a)) <$> arrivals)
    ∪ dom (memories (self (streaming_conversation_chain app))).
Proof.
  induction arrivals as [|a arrivals IH]; intros app s Hc.
  - simpl. by rewrite union_empty_l_L.
  - rewrite handle_all_cons. simpl.
    destruct (handle_serve a app s Hc) as (_ & Hσ & Hc').
    rewrite (IH _ s Hc'), Hσ, final_keys.
    by rewrite !(assoc_L (∪)), (comm_L (∪) (list_to_set _)).
Qed.

Lemma handle_all_calls key arrivals : ∀ app s,
  cached (settings_cache app) = Some s →
  make_llm (self (streaming_conversation_chain app)) = configured_client key →
  ∀ tr client prompt,
    tr ∈ (handle_all arrivals app).1 → LlmCall client prompt ∈ tr →
    client = configured_client key.
Proof.
  induction arrivals as [|a arrivals IH]; intros app s Hc Hkey tr client prompt.
  - simpl. by intros ?%elem_of_nil.
  - rewrite handle_all_cons. simpl.
    destruct (handle_serve a app s Hc) as (Htr & Hσ & Hc').
    rewrite elem_of_cons. intros [->|Hin] Hcall.
    + rewrite Htr in Hcall. apply final_calls in Hcall as [-> _]. done.
    + eapply (IH _ s Hc'); [|done..]. rewrite Hσ. unfold make_llm.
      destruct (final_options (remote_then a) (request a)
                  (streaming_conversation_chain app)) as [-> ->].
      apply Hkey.
Qed.

(** ** Further properties *)

Lemma module_init_settings env app :
  module_init env = inr app →
  ∃ s, Settings_init env 0 = inr s ∧
       cached (settings_cache app) = Some s ∧
       streaming_conversation_chain app = store (boot (settings_openai_api_key s)).
Proof.
  unfold module_init, get_settings. simpl.
  destruct (Settings_init env 0) as [e|s]; intros [= <-]. by exists s.
Qed.

(** X1: in a process that has started, every call to the model, of every
    request, is made with streaming on, temperature 0 and the API key the
    settings gave at import. *)
Theorem calls_carry_configured_key env arrivals responses app tr client prompt :
  main env arrivals = inr (responses, app) →
  tr ∈ responses →
  LlmCall client prompt ∈ tr →
  ∃ settings,
    Settings_init env 0 = inr settings ∧
    client = {| llm_streaming := true;
                llm_temperature := 0;
                llm_openai_api_key := settings_openai_api_key settings |}.
Proof.
  unfold main. destruct (module_init env) as [e|app0] eqn:Hinit; [done|].
  destruct (module_init_settings env app0 Hinit) as (s & Hs & Hc & Hσ).
  intros [= Hrun] Htr Hcall. exists s. split; [done|].
  eapply (handle_all_calls (settings_openai_api_key s) arrivals app0 s Hc);
    [by rewrite Hσ| |done].
  by rewrite Hrun.
Qed.

(** X2: once the process has answered its requests, the keys of the
    mapping are exactly the identifiers of those requests, whether their
    calls to the model succeeded or failed. *)
Theorem memories_keys_are_requested_ids env arrivals responses app :
  main env arrivals = inr (responses, app) →
  dom (memories (self (streaming_conversation_chain app)))
  = list_to_set ((λ a, conversation_id (request a)) <$> arrivals).
Proof.
  unfold main. destruct (module_init env) as [e|app0] eqn:Hinit; [done|].
  destruct (module_init_settings env app0 Hinit) as (s & _ & Hc & Hσ).
  intros [= Hrun].
  pose proof (handle_all_keys arrivals app0 s Hc) as Hkeys.
  rewrite Hrun, Hσ in Hkeys. simpl in Hkeys.
  by rewrite Hkeys, dom_empty_L, union_empty_r_L.
Qed.

(** X3: in a server reached from its start, under any interleaving, every
    memory object that exists is stored in the mapping, under one
    identifier only. *)
Theorem every_memory_has_one_identifier key sys l :
  rtc sys_step (boot key) sys →
  is_Some (heap (store sys) !! l) →
  ∃ cid,
    memories (self (store sys)) !! cid = Some l ∧
    ∀ cid', memories (self (store sys)) !! cid' = Some l → cid' = cid.
Proof.
  intros Hreach Hl.
  destruct (reachable_tight key sys Hreach l Hl) as [cid Hcid].
  destruct (reachable_inv key sys Hreach) as [[_ Hinj] _].
  exists cid. split; [done|]. intros cid' Hcid'. by eapply Hinj.
Qed.

(** X4: on a well-formed store, a request that has ended, under any
    schedule, has changed the history of its own conversation by
    appending its message and the model's whole answer when the call
    succeeded, and by nothing when the call failed; the history of every
    other conversation is unchanged. *)
Theorem request_effect_on_histories remote data σ schedule cid :
  wf σ →
  finished (run_schedule remote schedule (accept data σ)) = true →
  history_of cid (run_schedule remote schedule (accept data σ)).2
  = history_of cid σ
    ++ (if decide (conversation_id data = cid)
        then match failure (answer remote data σ) with
             | None => [HumanMessage (message data);
                        AIMessage (join (fragments (answer remote data σ)))]
             | Some _ => []
             end
        else []).
Proof.
  intros Hwf Hfin. rewrite (run_schedule_store _ _ _ _ Hfin).
  by apply final_history.
Qed.


(** X6: along any run of the server, under any interleaving, a memory
    object stays and its messages are only ever extended: what it held
    is a prefix of what it holds. *)
Theorem histories_append_only sys sys' l m :
  rtc sys_step sys sys' →
  heap (store sys) !! l = Some m →
  ∃ m', heap (store sys') !! l = Some m' ∧ messages m `prefix_of` messages m'.
Proof.
  intros Hsteps. revert m.
  induction Hsteps as [sys|sys1 sys2 sys3 Hstep _ IH]; intros m Hl.
  - by exists m.
  - assert (∃ m2, heap (store sys2) !! l = Some m2 ∧
                  messages m `prefix_of` messages m2) as (m2 & Hl2 & Hpre).
    { destruct Hstep; simpl; [by exists m|].
      eapply store_change_prefix; eauto using step_store_change. }
    destruct (IH m2 Hl2) as (m3 & Hl3 & Hpre'). exists m3. split; [done|].
    by etrans.
Qed.

(** X7: in a server reached from its start, under any interleaving, every
    call to the model that a request in flight has made carries the
    client options of the chain (streaming, temperature 0, the chain's
    key) and a prompt that is the system message, then whole exchanges (a
    human message followed by an AI message, any number of times), then
    one human message. *)
Theorem calls_are_well_formed key sys i f client prompt :
  rtc sys_step (boot key) sys →
  inflight sys !! i = Some f →
  LlmCall client prompt ∈ trace (req_of f) →
  client = {| llm_streaming := true; llm_temperature := 0; llm_openai_api_key := key |} ∧
  ∃ turns input,
    prompt
    = [SystemMessage SYSTEM_TEMPLATE]
      ++ (turns ≫= (λ turn, [HumanMessage turn.1; AIMessage turn.2]))
      ++ [HumanMessage input].
Proof.
  intros Hreach Hf Hcall.
  destruct (reachable_calls key sys Hreach) as [_ Hreqs].
  rewrite Forall_lookup in Hreqs. destruct (Hreqs i f Hf) as [Htrace _].
  rewrite Forall_forall in Htrace. apply (Htrace _ Hcall).
Qed.

(** ** Completed exchanges under interleaving *)

Lemma saved_in_mono r σ σ' cid ex :
  store_change r σ σ' → saved_in σ cid ex → saved_in σ' cid ex.
Proof.
  intros Hchange (l & m & before & after & Hcid & Hl & Hm).
  destruct (store_change_prefix r σ σ' l m Hchange Hl) as (m' & Hl' & [k Hk]).
  exists l, m', before, (after ++ k). split; [|split; [done|]].
  - eapply lookup_weaken; [done|]. by eapply store_change_subseteq.
  - by rewrite Hk, Hm, <-!app_assoc.
Qed.

Lemma task_progress_mono r σ σ' data queued run :
  store_change r σ σ' →
  task_progress σ data queued run → task_progress σ' data queued run.
Proof.
  intros Hchange. destruct run as [| | |[e|output]]; simpl; try done.
  intros [? ?]. eauto using saved_in_mono.
Qed.

Lemma progress_mono r σ σ' f : store_change r σ σ' → progress σ f → progress σ' f.
Proof.
  intros Hchange. unfold progress. destruct (gen (req_of f)); try done;
    try (by apply task_progress_mono with r).
  intros [rest ?]. exists rest. by apply (saved_in_mono r σ).
Qed.

Lemma body_of_app tr1 tr2 : body_of (tr1 ++ tr2) = body_of tr1 ++ body_of tr2.
Proof. apply omap_app. Qed.

Lemma arun_step_progress remote σ data relayed h run h' run' evs mems :
  (∀ l, task_memory run = Some l →
        memories (self σ) !! conversation_id data = Some l ∧ is_Some (heap σ !! l)) →
  task_progress σ data (relayed ++ queue h) run →
  arun_step remote h run (heap σ) = Some (h', run', evs, mems) →
  body_of evs = [] ∧
  task_progress {| self := self σ; heap := mems |} data (relayed ++ queue h') run'.
Proof.
  intros Hbound Hprog Hstep.
  destruct run as [chain input|chain input sent [|token todo] [reason|]
                   |chain input output|[e|output]]; simplify_eq/=; try done.
  - destruct Hprog as (-> & ->). by rewrite join_delivered.
  - destruct Hprog as (-> & Hq). split; [done|]. split; [done|].
    rewrite on_llm_new_token_queue, delivered_app, <-Hq. simpl. by rewrite app_assoc.
  - destruct Hprog as (-> & Hq). split; [done|]. split; [done|].
    rewrite on_llm_new_token_queue, delivered_app, <-Hq. simpl. by rewrite app_assoc.
  - destruct Hprog as (-> & ->). split; [done|]. split; [done|].
    destruct (Hbound (memory chain) eq_refl) as [Hcid [m Hm]].
    exists (memory chain), (save_context (message data) (join (relayed ++ queue h')) m),
      (messages m), []. simpl.
    by rewrite lookup_alter_eq, Hm.
Qed.

Lemma step_progress remote data a r σ r' σ' :
  wf σ →
  bound_to σ {| remote_of := remote; data_of := data; req_of := r |} →
  progress σ {| remote_of := remote; data_of := data; req_of := r |} →
  step remote a (r, σ) = Some (r', σ') →
  progress σ' {| remote_of := remote; data_of := data; req_of := r' |}.
Proof.
  intros [Hlive _] Hbound Hprog Hstep. unfold progress, bound_to in *. simpl in *.
  destruct a; unfold step in Hstep.
  - apply task_step_inv in Hstep
      as (s & h & run & h' & run' & evs & mems & Hgen & Hrun & ?). simplify_eq/=.
    rewrite Hgen in Hbound, Hprog.
    destruct (arun_step_progress remote σ data (body_of (trace r)) h run h' run'
                evs mems) as [Hevs Hp]; [by destruct s; naive_solver|by destruct s|done|].
    rewrite body_of_app, Hevs, app_nil_r. by destruct s.
  - simpl in Hstep.
    destruct (gen r) as [cid msg| h run | h run | h run | |] eqn:Hgen; simplify_eq.
    + destruct Hprog as (_ & Hmsg & Hbody).
      destruct (get_memory (conversation_id data) σ) as [l σ1]; simplify_eq/=.
      by rewrite Hbody.
    + destruct (queue h) as [|token rest] eqn:Hq; [destruct (done h) eqn:Hd|];
        simplify_eq/=.
      * by rewrite Hq.
      * by rewrite body_of_app, <-app_assoc.
    + destruct (queue h) as [|token rest] eqn:Hq; [destruct (done h) eqn:Hd|];
        simplify_eq/=.
      * by rewrite Hq.
      * by rewrite Hq.
      * by rewrite body_of_app, <-app_assoc.
    + destruct run as [| | |[e|output]]; simplify_eq/=; [done|].
      destruct Hprog as [-> Hsaved]. exists (join (queue h)).
      by rewrite body_of_app, app_nil_r, <-join_app.
  - apply leave_at_done_inv in Hstep as (h & run & Hgen & _ & ?). simplify_eq/=.
    by rewrite Hgen in Hprog.
Qed.

Lemma sys_step_progress sys sys' :
  sys_step sys sys' → sys_inv sys →
  Forall (progress (store sys)) (inflight sys) →
  Forall (progress (store sys')) (inflight sys').
Proof.
  intros Hstep [Hwf Hbound] Hprog.
  destruct Hstep as [remote data sys|i a f r' σ' sys Hf Hs]; simpl.
  - apply Forall_app. split; [done|]. by apply Forall_singleton.
  - pose proof (step_store_change _ _ _ _ _ _ Hs) as Hchange.
    rewrite Forall_lookup in Hbound. specialize (Hbound i f Hf).
    apply Forall_insert.
    + eapply Forall_impl; [done|]. intros f'. by apply progress_mono with (req_of f).
    + rewrite Forall_lookup in Hprog. specialize (Hprog i f Hf).
      destruct f as [remote data r]. by eapply step_progress.
Qed.

Lemma reachable_progress key sys :
  rtc sys_step (boot key) sys → Forall (progress (store sys)) (inflight sys).
Proof.
  intros H. cut (sys_inv sys ∧ Forall (progress (store sys)) (inflight sys)); [tauto|].
  revert sys H. apply rtc_ind_r.
  - split; [apply boot_inv|constructor].
  - intros sys1 sys2 _ Hstep [Hinv Hprog]. split.
    + by eapply sys_step_inv.
    + by eapply sys_step_progress.
Qed.

(** X8: in a server reached from its start, under any interleaving of
    the requests, a request whose generator has returned has its message
    and an answer standing together in the memory of its conversation,
    and the body its client received, joined, is the beginning of that
    answer: the exchange is saved before the stream closes, whether or
    not the client was sent all of it. *)
Theorem completed_exchanges_are_remembered key sys i f :
  rtc sys_step (boot key) sys →
  inflight sys !! i = Some f →
  gen (req_of f) = Returned →
  ∃ before after rest,
    history_of (conversation_id (data_of f)) (store sys)
    = before
      ++ [HumanMessage (message (data_of f));
          AIMessage (join (body_of (trace (req_of f))) +:+ rest)]
      ++ after.
Proof.
  intros Hreach Hf Hret.
  pose proof (reachable_progress key sys Hreach) as Hprog.
  rewrite Forall_lookup in Hprog. specialize (Hprog i f Hf).
  unfold progress in Hprog. rewrite Hret in Hprog.
  destruct Hprog as (rest & l & m & before & after & Hcid & Hl & Hm).
  exists before, after, rest. unfold history_of. rewrite Hcid.
  by rewrite (lookup_total_correct _ _ _ Hl).
Qed.

(** ** The further properties at sample inputs *)

Lemma calls_carry_configured_key_witness :
  ∃ settings,
    Settings_init key_env 0 = inr settings ∧
    configured_client "sk-test"
    = {| llm_streaming := true;
         llm_temperature := 0;
         llm_openai_api_key := settings_openai_api_key settings |}.
Proof.
  apply (calls_carry_configured_key key_env sample_arrivals
           sample_outcome.1 sample_outcome.2
           (trace (serve steady_remote cat_request started).1)
           (configured_client "sk-test") (submitted cat_request started)).
  - vm_compute. reflexivity.
  - apply (list_elem_of_lookup_2 _ 0). vm_compute. reflexivity.
  - apply (list_elem_of_lookup_2 _ 1). vm_compute. reflexivity.
Defined.

Lemma memories_keys_are_requested_ids_witness :
  dom (memories (self (streaming_conversation_chain sample_outcome.2)))
  = list_to_set ((λ a, conversation_id (request a)) <$> sample_arrivals).
Proof.
  apply (memories_keys_are_requested_ids key_env sample_arrivals sample_outcome.1).
  vm_compute. reflexivity.
Defined.

Lemma every_memory_has_one_identifier_witness :
  ∃ cid,
    memories (self (store two_conversations)) !! cid = Some 0 ∧
    ∀ cid', memories (self (store two_conversations)) !! cid' = Some 0 → cid' = cid.
Proof.
  apply (every_memory_has_one_identifier "sk-test" two_conversations 0).
  - apply sys_run_steps.
  - exists new_memory. vm_compute. reflexivity.
Defined.

Lemma request_effect_on_histories_witness :
  history_of "cat-conversation"
    (run_schedule failing_remote (round_robin 8)
       (accept dog_request
          (run_schedule steady_remote (round_robin 8) (accept cat_request started)).2)).2
  = [HumanMessage "what's their size?"; AIMessage "Cats are small."].
Proof.
  etrans.
  - apply (request_effect_on_histories failing_remote dog_request
             (run_schedule steady_remote (round_robin 8) (accept cat_request started)).2
             (round_robin 8) "cat-conversation").
    + apply (run_schedule_wf steady_remote (round_robin 8) (accept cat_request started)).
      apply boot_inv.
    + vm_compute. reflexivity.
  - vm_compute. reflexivity.
Defined.


Lemma histories_append_only_witness :
  ∃ m', heap (store cat_served) !! 0 = Some m' ∧
        messages new_memory `prefix_of` messages m'.
Proof.
  apply (histories_append_only two_conversations cat_served 0 new_memory).
  - apply sys_run_steps.
  - vm_compute. reflexivity.
Defined.

Lemma calls_are_well_formed_witness :
  configured_client "sk-test"
  = {| llm_streaming := true; llm_temperature := 0; llm_openai_api_key := "sk-test" |} ∧
  ∃ turns input,
    submitted cat_request started
    = [SystemMessage SYSTEM_TEMPLATE]
      ++ (turns ≫= (λ turn, [HumanMessage turn.1; AIMessage turn.2]))
      ++ [HumanMessage input].
Proof.
  apply (calls_are_well_formed "sk-test" two_conversations 0 cat_inflight).
  - apply sys_run_steps.
  - vm_compute. reflexivity.
  - apply (list_elem_of_lookup_2 _ 1). vm_compute. reflexivity.
Defined.

Lemma completed_exchanges_are_remembered_witness :
  ∃ before after rest,
    history_of "cat-conversation" (store cat_cut_short)
    = before
      ++ [HumanMessage "what's their size?"; AIMessage ("Cats " +:+ rest)]
      ++ after.
Proof.
  destruct (completed_exchanges_are_remembered "sk-test" cat_cut_short 0
              (default dog_inflight (inflight cat_cut_short !! 0)))
    as (before & after & rest & H).
  - transitivity two_conversations; apply sys_run_steps.
  - vm_compute. reflexivity.
  - vm_compute. reflexivity.
  - exists before, after, rest. etrans; [exact H|]. vm_compute. reflexivity.
Defined.
